(** * Cat-image download notebook: extraction pipeline and downloader

    A shallow embedding of the notebook
    [petpy/Download 45,000 Adoptable Cat Images with petpy and
    multiprocessing.ipynb] and the properties its description states.

    The notebook is a pandas script.  Data frames are modelled as lists of
    rows in frame order, with one record type per column layout; a missing
    cell (NaN) is [None].  Each pandas operation the script calls is a
    function of its own, named after the call, and the cells of the notebook
    are composed from them in the order they are run.  Python exceptions are
    values of [exn] carried by the [result] monad. *)

From Stdlib Require Import ZArith String Ascii.
From stdpp Require Import base option list sorting gmap strings pretty.

#[local] Set Warnings "-clear-no-such-hyp".

Local Open Scope Z_scope.

(** ** Exceptions *)

(** The exception classes the notebook can meet.  [HTTPError] carries its
    [code] attribute.  In [urllib.error], [HTTPError] and
    [ContentTooShortError] are subclasses of [URLError], itself a subclass of
    [OSError]. *)
Inductive exn : Type :=
  | ValueError
  | OverflowError
  | HTTPError (code : Z)
  | URLError
  | ContentTooShortError
  | OSError.

Inductive result (A : Type) : Type :=
  | Ok (a : A)
  | Raise (e : exn).
Arguments Ok {A} a.
Arguments Raise {A} e.

Global Instance result_ret : MRet result := λ A a, Ok a.
Global Instance result_bind : MBind result := λ A B k m,
  match m with
  | Ok a => k a
  | Raise e => Raise e
  end.
Global Instance result_fmap : FMap result := λ A B f m,
  match m with
  | Ok a => Ok (f a)
  | Raise e => Raise e
  end.

(** Running a fallible function over a column, left to right; the first
    exception aborts the whole column. *)
Fixpoint mapM_result {A B} (f : A → result B) (l : list A) : result (list B) :=
  match l with
  | [] => Ok []
  | a :: l' => b ← f a; bs ← mapM_result f l'; Ok (b :: bs)
  end.

(** ** Python strings *)

Module PyStr.

(** [drop_prefix p s] is the rest of [s] after its prefix [p]. *)
Fixpoint drop_prefix (p s : string) : option string :=
  match p, s with
  | EmptyString, _ => Some s
  | String a p', String b s' =>
      if decide (a = b) then drop_prefix p' s' else None
  | String _ _, EmptyString => None
  end.

(** [s.split(pat, 1)[1]]: what follows the leftmost occurrence of [pat];
    [None] when the split has a single part. *)
Fixpoint after_first (pat s : string) : option string :=
  match drop_prefix pat s with
  | Some rest => Some rest
  | None =>
      match s with
      | EmptyString => None
      | String _ s' => after_first pat s'
      end
  end.

(** [s.split(c)[0]]: what precedes the first [c], all of [s] without. *)
Fixpoint before_first (c : ascii) (s : string) : string :=
  match s with
  | EmptyString => EmptyString
  | String a s' =>
      if decide (a = c) then EmptyString else String a (before_first c s')
  end.

(** [s.replace(c, d)] and [s.replace(c, '')] for one-character patterns. *)
Fixpoint replace_char (c d : ascii) (s : string) : string :=
  match s with
  | EmptyString => EmptyString
  | String a s' =>
      String (if decide (a = c) then d else a) (replace_char c d s')
  end.

Fixpoint remove_char (c : ascii) (s : string) : string :=
  match s with
  | EmptyString => EmptyString
  | String a s' =>
      if decide (a = c) then remove_char c s' else String a (remove_char c s')
  end.

Fixpoint chars (s : string) : list ascii :=
  match s with
  | EmptyString => []
  | String a s' => a :: chars s'
  end.

(** White space as [int] strips it: the ASCII characters for which
    [str.isspace] holds. *)
Definition is_space (c : ascii) : bool :=
  let n := N_of_ascii c in
  ((9 <=? n) && (n <=? 13) || (28 <=? n) && (n <=? 32))%N.

Fixpoint lstrip (s : string) : string :=
  match s with
  | EmptyString => EmptyString
  | String a s' => if is_space a then lstrip s' else s
  end.

Definition strip (s : string) : string :=
  String.rev (lstrip (String.rev (lstrip s))).

Definition digit_of (c : ascii) : option Z :=
  let n := N_of_ascii c in
  if ((48 <=? n) && (n <=? 57))%N then Some (Z.of_N n - 48) else None.

(** Decimal digits with single underscores allowed between two digits.
    [after_digit] tells that the previous character was a digit. *)
Fixpoint digits (after_digit : bool) (acc : Z) (s : string) : option Z :=
  match s with
  | EmptyString => if after_digit then Some acc else None
  | String a s' =>
      match digit_of a with
      | Some d => digits true (10 * acc + d) s'
      | None =>
          if decide (a = "_"%char) then
            if after_digit then digits false acc s' else None
          else None
      end
  end.

(** [int(s)] in base 10 on an ASCII string. *)
Definition int (s : string) : result Z :=
  let s := strip s in
  let '(neg, body) :=
    match s with
    | String "-" r => (true, r)
    | String "+" r => (false, r)
    | _ => (false, s)
    end in
  match digits false 0 body with
  | Some n => Ok (if neg : bool then - n else n)
  | None => Raise ValueError
  end.

End PyStr.

(** ** The frames of the notebook *)

(** A row of [cats], restricted to the columns [get_images] keeps: [id],
    the two breed columns and the photo columns, in column order.  A row
    with fewer photo cells than the frame has photo columns has NaN in the
    remaining ones.  The primary breed is always present, the secondary one
    is optional; ids are integers and photo cells hold ASCII strings. *)
Record pet : Type := Pet {
  pet_id : Z;
  breed0 : string;
  breed1 : option string;
  photos : list (option string)
}.

(** A row of the frame [pd.melt] returns (without the [variable] column,
    which the notebook deletes unread), and a row of [photos_melted] once
    [dropna(subset=['value'])] has removed the rows with no value. *)
Record melted : Type := Melted {
  m_id : Z;
  m_breed0 : string;
  m_breed1 : option string;
  m_value : option string
}.

Record melted_photo : Type := MeltedPhoto {
  mp_id : Z;
  mp_breed0 : string;
  mp_breed1 : option string;
  value : string
}.

(** A row of [breed_photos]: columns [id], [breed], [img]. *)
Record photo : Type := Photo {
  id_ : Z;
  breed : string;
  img : string
}.

(** A row once the [image_width] column is added. *)
Record sized : Type := Sized {
  row : photo;
  image_width : Z
}.

Global Instance photo_eq_dec : EqDecision photo.
Proof. solve_decision. Defined.
Global Instance sized_eq_dec : EqDecision sized.
Proof. solve_decision. Defined.
Global Instance exn_eq_dec : EqDecision exn.
Proof. solve_decision. Defined.

(** ** pandas operations *)

Module Pandas.

Section frames.
Context {A : Type}.

(** [DataFrame.drop_duplicates(subset=...)] with the default
    [keep='first']: a row is dropped when an earlier row has the same
    values in the subset columns.  [seen] is the set of keys met so
    far. *)
Fixpoint drop_duplicates_from `{Countable K} (key : A → K)
    (seen : gset K) (df : list A) : list A :=
  match df with
  | [] => []
  | x :: df' =>
      if decide (key x ∈ seen) then drop_duplicates_from key seen df'
      else x :: drop_duplicates_from key ({[ key x ]} ∪ seen) df'
  end.

Definition drop_duplicates `{Countable K} (key : A → K)
    (df : list A) : list A :=
  drop_duplicates_from key ∅ df.

(** [df.groupby(col).apply(f)] for a function [f] that returns a
    sub-frame of its group: the groups are taken in ascending key order,
    each keeps the frame order of its rows, and the results are
    concatenated.  Only the rows of the result are modelled.  Its index,
    from which the next cell of the notebook restores the [id] column
    ([reset_index] after [del cat_images_largest['id']]), is not: that
    cell is taken to yield the [id] of each row, as it does when the result
    is indexed by group key and row label. *)
Definition group_keys (key : A → Z) (df : list A) : list Z :=
  merge_sort Z.le (remove_dups (key <$> df)).

Definition groupby_apply (key : A → Z) (f : list A → list A)
    (df : list A) : list A :=
  k ← group_keys key df;
  f (filter (λ x, key x = k) df).

(** [df.groupby(col).head(n)]: a row is kept when fewer than [n] rows of
    its group precede it; the frame order is kept.  [seen] counts the
    rows met so far per group. *)
Fixpoint groupby_head_from `{Countable K} (key : A → K) (n : nat)
    (seen : gmap K nat) (df : list A) : list A :=
  match df with
  | [] => []
  | x :: df' =>
      let c := default 0%nat (seen !! key x) in
      let rest := groupby_head_from key n (<[ key x := S c ]> seen) df' in
      if decide (c < n)%nat then x :: rest else rest
  end.

Definition groupby_head `{Countable K} (key : A → K) (n : nat)
    (df : list A) : list A :=
  groupby_head_from key n ∅ df.

End frames.

End Pandas.

(** ** The notebook *)

Module Notebook.
Import Pandas.

(** *** Cell [get_images] *)

(** The number of photo columns of the frame. *)
Definition photo_columns (df : list pet) : nat :=
  max_list ((λ r, length (photos r)) <$> df).

(** The cell of row [r] in photo column [j]. *)
Definition photo_cell (j : nat) (r : pet) : option string :=
  mjoin (photos r !! j).

(** [pd.melt(photos, id_vars=['id', 'breed0', 'breed1'])]: one block of
    rows per photo column, in column order, each block in frame order. *)
Definition melt (df : list pet) : list melted :=
  j ← seq 0 (photo_columns df);
  (λ r, Melted (pet_id r) (breed0 r) (breed1 r) (photo_cell j r)) <$> df.

(** [photos_melted.dropna(subset=['value'])]. *)
Definition dropna_value (df : list melted) : list melted_photo :=
  omap (λ m, MeltedPhoto (m_id m) (m_breed0 m) (m_breed1 m) <$> m_value m) df.

(** The rows of [photos_melted] that photo column [j] gives. *)
Definition column (df : list pet) (j : nat) : list melted_photo :=
  omap (λ r, MeltedPhoto (pet_id r) (breed0 r) (breed1 r) <$> photo_cell j r) df.

(** [breeds1] and [breeds2] after their renaming; [breeds2.dropna()]
    removes the rows with no secondary breed. *)
Definition breeds1 (df : list melted_photo) : list photo :=
  (λ m, Photo (mp_id m) (mp_breed0 m) (value m)) <$> df.

Definition breeds2 (df : list melted_photo) : list photo :=
  omap (λ m, (λ b, Photo (mp_id m) b (value m)) <$> mp_breed1 m) df.

(** The key of [drop_duplicates()] with no subset: the whole row. *)
Definition whole_row (x : photo) : Z * string * string :=
  (id_ x, breed x, img x).

Definition get_images (df : list pet) : list photo :=
  let photos_melted := dropna_value (melt df) in
  drop_duplicates whole_row (breeds1 photos_melted ++ breeds2 photos_melted).

(** *** Cell [cat_breed_images['image_width'] = ...] *)

Definition int64_min : Z := - 2 ^ 63.
Definition int64_max : Z := 2 ^ 63 - 1.

(** [.astype(int)] on one cell of an object column: a NaN cell and a
    string that is no integer raise [ValueError], an integer outside
    int64 raises [OverflowError]. *)
Definition astype_int (cell : option string) : result Z :=
  match cell with
  | None => Raise ValueError
  | Some s =>
      n ← PyStr.int s;
      if decide (int64_min ≤ n ≤ int64_max) then Ok n else Raise OverflowError
  end.

(** [img.str.split('width=', 1).str[1].str.split('&', 0).str[0]
    .astype(int)] on one url. *)
Definition image_width_of (url : string) : result Z :=
  astype_int (PyStr.before_first "&" <$> PyStr.after_first "width=" url).

Definition add_image_width (df : list photo) : result (list sized) :=
  mapM_result (λ x, Sized x <$> image_width_of (img x)) df.

(** *** Cell [cat_images_largest = ...] *)

Definition target_width : Z := 500.

Definition largest (df : list sized) : list sized :=
  groupby_apply (λ x, id_ (row x))
    (filter (λ x, image_width x = target_width)) df.

(** *** Cell [cat_images_largest['breed'] = ...] *)

Definition sanitize (b : string) : string :=
  PyStr.remove_char "/" (PyStr.replace_char " " "_" b).

Definition sanitize_breed (x : sized) : sized :=
  Sized (Photo (id_ (row x)) (sanitize (breed (row x))) (img (row x)))
        (image_width x).

Definition cat_images_largest (df : list pet) : result (list sized) :=
  sized_rows ← add_image_width (get_images df);
  Ok (sanitize_breed <$> largest sized_rows).

(** *** Cell [breed_images = ...] *)

(** The key of [drop_duplicates(subset=['img', 'id'])]. *)
Definition img_id (x : sized) : string * Z := (img (row x), id_ (row x)).

Definition breed_images (df : list pet) : result (list sized) :=
  drop_duplicates img_id <$> cat_images_largest df.

(** *** Cell [breed_images_5000 = ...] *)

Definition breed_cap : nat := 5000.

Definition breed_images_5000 (df : list pet) : result (list sized) :=
  groupby_head (λ x, breed (row x)) breed_cap <$> breed_images df.

(** *** Cells [breed_list] and [breed_list_new]

    The index of [breed_images_5000] after [reset_index] is
    [0 .. len - 1]; [breed_list_new] packs it with the [breed] and [img]
    columns, row by row. *)
Definition breed_list_new (df : list pet) : result (list (nat * string * string)) :=
  imap (λ i x, (i, breed (row x), img (row x))) <$> breed_images_5000 df.

End Notebook.

(** ** The downloader *)

Module Downloader.

(** [os.path.join(a, *p)] of [posixpath]. *)
Definition starts_with_sep (s : string) : bool :=
  match s with
  | String "/" _ => true
  | _ => false
  end.

Definition ends_with_sep (s : string) : bool :=
  starts_with_sep (String.rev s).

Definition join2 (path b : string) : string :=
  if starts_with_sep b then b
  else if bool_decide (path = "") || ends_with_sep path then path +:+ b
  else path +:+ "/" +:+ b.

Definition path_join (a : string) (p : list string) : string :=
  foldl join2 a p.

(** What the notebook can observe of the outside: the files written so
    far, each with the url it was retrieved from, and the lines printed. *)
Record world : Type := World {
  files : list (string * string);
  stdout : list Z
}.

(** The network answers a url with its resource, or the retrieval raises. *)
Definition network : Type := string → option exn.

(** [urllib.request.urlretrieve(url, filename)]. *)
Definition urlretrieve (net : network) (url filename : string)
    (w : world) : result unit * world :=
  match net url with
  | None => (Ok (), World ((filename, url) :: files w) (stdout w))
  | Some e => (Raise e, w)
  end.

Definition print (n : Z) (w : world) : world :=
  World (files w) (stdout w ++ [n]).

Definition filename_of (breed_img : nat * string * string) : string :=
  let '(index, breed, _) := breed_img in
  path_join "cat_breeds/" [breed; breed +:+ pretty index +:+ ".jpg"].

(** Cell [download_breed_images]: the [except] clause names
    [urllib.error.HTTPError] only; any other exception leaves the
    function. *)
Definition download_breed_images (net : network)
    (breed_img : nat * string * string) (w : world) : result unit * world :=
  match urlretrieve net (breed_img.2) (filename_of breed_img) w with
  | (Ok (), w') => (Ok (), w')
  | (Raise (HTTPError code), w') => (Ok (), print code w')
  | (Raise e, w') => (Raise e, w')
  end.

(** [pool.map(f, items)]: every task is run, whatever happens to the
    others; the call returns the results, or raises when a task raised.
    The interleaving of the workers is not modelled: tasks run in list
    order. *)
Fixpoint run_tasks {A B} (f : A → world → result B * world)
    (items : list A) (w : world) : list (result B) * world :=
  match items with
  | [] => ([], w)
  | x :: items' =>
      let '(r, w1) := f x w in
      let '(rs, w2) := run_tasks f items' w1 in
      (r :: rs, w2)
  end.

Definition pool_map {A B} (f : A → world → result B * world)
    (items : list A) (w : world) : result (list B) * world :=
  let '(rs, w') := run_tasks f items w in
  (mapM_result (λ r, r) rs, w').

End Downloader.

(** ** The breed directories *)

Module Directories.
Import Pandas Notebook.




End Directories.

(** ** Sample frames *)

Module Samples.
Import Notebook Downloader.

(** The urls of one photo of a pet at a given width, as the API lists
    them. *)
Definition photo_url (pet_no width : string) : string :=
  "http://photos.petfinder.com/photos/pets/" +:+ pet_no +:+
  "/1/?bust=1513891215&width=" +:+ width +:+ "&-x.jpg".

Definition five_widths (pet_no : string) : list (option string) :=
  [Some (photo_url pet_no "50"); Some (photo_url pet_no "60");
   Some (photo_url pet_no "95"); Some (photo_url pet_no "300");
   Some (photo_url pet_no "500")].

(** Two pets with photos, one of them with two breed labels and an empty
    photo cell, and a pet with no photo at all. *)
Definition cats : list pet :=
  [ Pet 40181161 "Domestic Short Hair" (Some "Tabby / Tiger")
      (five_widths "40181161" ++ [None]);
    Pet 38018075 "Abyssinian" None (five_widths "38018075");
    Pet 38017865 "Siamese" None [None; None] ].

(** One pet whose two breed labels are the same, one whose labels
    differ. *)
Definition same_labels : list pet :=
  [ Pet 1 "Siamese" (Some "Siamese")
      [Some (photo_url "1" "500"); Some (photo_url "1" "300")] ].

Definition two_labels : list pet :=
  [ Pet 2 "Siamese" (Some "Tabby")
      [Some (photo_url "2" "500"); Some (photo_url "2" "300")] ].



Definition unsupported_media (pet_no : string) : network := λ url,
  if bool_decide (url = photo_url pet_no "500") then Some (HTTPError 415)
  else None.

Definition fresh : world := World [] [].

End Samples.

(** ** Facts about the pandas operations *)

Module PandasFacts.
Import Pandas.

Section first_row.
Context {A : Type} (P : A → Prop) `{!∀ x, Decision (P x)}.

(** [head (filter P df)] is the first row of [df] that satisfies [P]. *)
Lemma head_filter_Some (df : list A) x :
  head (filter P df) = Some x ↔
  ∃ l1 l2, df = l1 ++ x :: l2 ∧ P x ∧ ∀ y, y ∈ l1 → ¬ P y.
Proof.
  induction df as [|a df IH]; simpl.
  - split; [done|]. intros (l1 & l2 & Heq & _). by destruct l1.
  - rewrite filter_cons. destruct (decide (P a)) as [Ha|Ha]; simpl.
    + split.
      * intros [= ->]. exists [], df. split_and!; [done..|].
        intros y Hy. by apply elem_of_nil in Hy.
      * intros (l1 & l2 & Heq & Hx & Hl1). destruct l1 as [|b l1].
        -- by simplify_eq/=.
        -- simplify_eq/=. destruct (Hl1 b); [left|done].
    + rewrite IH. split.
      * intros (l1 & l2 & -> & Hx & Hl1). exists (a :: l1), l2.
        split_and!; [done..|]. intros y [->|Hy]%elem_of_cons; auto.
      * intros (l1 & l2 & Heq & Hx & Hl1). destruct l1 as [|b l1].
        -- by simplify_eq/=.
        -- simplify_eq/=. exists l1, l2. split_and!; [done..|].
           intros y Hy. apply Hl1. by right.
Qed.

Lemma head_filter_elem_of (df : list A) x :
  head (filter P df) = Some x → x ∈ df ∧ P x.
Proof.
  intros Hx. assert (x ∈ filter P df) as Hin.
  { destruct (filter P df); simplify_eq/=. left. }
  apply list_elem_of_filter in Hin. tauto.
Qed.

Lemma head_filter_None (df : list A) :
  head (filter P df) = None ↔ ∀ y, y ∈ df → ¬ P y.
Proof.
  split.
  - intros Hnone y Hy HP.
    assert (y ∈ filter P df) as Hin by by apply list_elem_of_filter.
    destruct (filter P df); [by apply elem_of_nil in Hin|done].
  - intros Hall. destruct (filter P df) as [|a l] eqn:Heq; [done|].
    assert (a ∈ filter P df) as Hin by (rewrite Heq; left).
    apply list_elem_of_filter in Hin as [? ?]. by destruct (Hall a).
Qed.
End first_row.

(** Two predicates that agree on the rows of a frame select the same
    rows. *)
Lemma filter_ext_in {A} (P Q : A → Prop)
    `{!∀ x, Decision (P x), !∀ x, Decision (Q x)} (df : list A) :
  (∀ x, x ∈ df → P x ↔ Q x) → filter P df = filter Q df.
Proof.
  induction df as [|a df IH]; intros Hext; [done|].
  assert (a ∈ a :: df) as Hin by left. apply Hext in Hin.
  rewrite !filter_cons, IH.
  - destruct (decide (P a)), (decide (Q a)); tauto.
  - intros x Hx. apply Hext. by right.
Qed.

Lemma filter_all {A} (P : A → Prop) `{!∀ x, Decision (P x)} (df : list A) :
  (∀ x, x ∈ df → P x) → filter P df = df.
Proof.
  induction df as [|a df IH]; intros Hall; [done|].
  rewrite filter_cons_True by (apply Hall; left).
  f_equal. apply IH. intros x Hx. apply Hall. by right.
Qed.

Lemma filter_fmap {A B} (f : A → B) (P : B → Prop)
    `{!∀ y, Decision (P y)} (df : list A) :
  filter P (f <$> df) = f <$> filter (λ x, P (f x)) df.
Proof.
  induction df as [|a df IH]; [done|]. rewrite fmap_cons, !filter_cons.
  destruct (decide (P (f a))); simpl; by rewrite IH.
Qed.

Lemma length_filter_fmap {A B} (f : A → B) (P : B → Prop)
    `{!∀ y, Decision (P y)} (df : list A) :
  length (filter (λ x, P (f x)) df) = length (filter P (f <$> df)).
Proof. by rewrite filter_fmap, length_fmap. Qed.

Section drop_duplicates.
Context {A : Type} `{Countable K} (key : A → K).

Lemma drop_duplicates_from_sublist seen df :
  drop_duplicates_from key seen df `sublist_of` df.
Proof.
  revert seen. induction df as [|x df IH]; intros seen; simpl; [done|].
  case_decide; [by apply sublist_cons|by apply sublist_skip].
Qed.

Lemma elem_of_drop_duplicates_from seen df x :
  x ∈ drop_duplicates_from key seen df → x ∈ df ∧ key x ∉ seen.
Proof.
  revert seen. induction df as [|a df IH]; intros seen; simpl.
  - by intros ?%elem_of_nil.
  - case_decide.
    + intros Hx. apply IH in Hx as [? ?]. split; [by right|done].
    + intros [->|Hx]%elem_of_cons; [split; [left|done]|].
      apply IH in Hx as [? ?]. split; [by right|set_solver].
Qed.

(** No two rows of the result have the same key. *)
Lemma NoDup_drop_duplicates_from seen df :
  NoDup (key <$> drop_duplicates_from key seen df).
Proof.
  revert seen. induction df as [|a df IH]; intros seen; simpl.
  - constructor.
  - case_decide; [done|]. rewrite fmap_cons. constructor; [|done].
    intros (y & Hkey & Hy)%list_elem_of_fmap.
    apply elem_of_drop_duplicates_from in Hy as [_ Hy]. set_solver.
Qed.

(** The first row with a property that only depends on the key is the
    same before and after. *)
Lemma head_filter_drop_duplicates_from (P : A → Prop)
    `{!∀ x, Decision (P x)} seen df :
  (∀ x y, key x = key y → P x → P y) →
  head (filter P (drop_duplicates_from key seen df)) =
  head (filter (λ x, P x ∧ key x ∉ seen) df).
Proof.
  intros Hresp. revert seen.
  induction df as [|a df IH]; intros seen; simpl; [done|].
  rewrite (filter_cons (λ x, P x ∧ key x ∉ seen)).
  case_decide as Hseen.
  - rewrite IH. by rewrite decide_False by tauto.
  - rewrite filter_cons. destruct (decide (P a)) as [Ha|Ha].
    + by rewrite decide_True by tauto.
    + rewrite decide_False by tauto. rewrite IH. f_equal.
      apply filter_ext_in. intros x _. split; [set_solver|].
      intros [Hx Hnot]. split; [done|].
      intros [Heq%elem_of_singleton|?]%elem_of_union; [|done].
      apply Ha. by apply (Hresp x a).
Qed.

Lemma head_filter_drop_duplicates (P : A → Prop)
    `{!∀ x, Decision (P x)} df :
  (∀ x y, key x = key y → P x → P y) →
  head (filter P (drop_duplicates key df)) = head (filter P df).
Proof.
  intros Hresp. unfold drop_duplicates.
  rewrite head_filter_drop_duplicates_from by done. f_equal.
  apply filter_ext_in. intros x _. set_solver.
Qed.

(** In a frame without duplicate keys, a key selects at most one row. *)
Lemma filter_key_NoDup (df : list A) k :
  NoDup (key <$> df) →
  filter (λ x, key x = k) df =
  option_list (head (filter (λ x, key x = k) df)).
Proof.
  induction df as [|a df IH]; [done|].
  rewrite fmap_cons. intros [Hnotin Hnd]%NoDup_cons.
  rewrite filter_cons. case_decide as Ha; simpl; [|by apply IH].
  f_equal. apply elem_of_nil_inv. intros y [Hy Hin]%list_elem_of_filter.
  apply Hnotin. rewrite Ha, <-Hy. by apply list_elem_of_fmap_2.
Qed.

(** A row survives exactly when it is the first row of the frame with
    its key. *)
Lemma elem_of_drop_duplicates df x :
  x ∈ drop_duplicates key df ↔
  head (filter (λ y, key y = key x) df) = Some x.
Proof.
  rewrite <-(head_filter_drop_duplicates (λ y, key y = key x))
    by congruence.
  split.
  - intros Hx.
    assert (x ∈ filter (λ y, key y = key x) (drop_duplicates key df))
      as Hin by by apply list_elem_of_filter.
    rewrite filter_key_NoDup in Hin
      by apply NoDup_drop_duplicates_from.
    destruct (head _) as [y|]; simpl in Hin.
    + by apply list_elem_of_singleton in Hin as ->.
    + by apply elem_of_nil in Hin.
  - by intros [? _]%head_filter_elem_of.
Qed.
End drop_duplicates.

Section groupby_apply.
Context {A : Type} (key : A → Z).

Lemma elem_of_group_keys df k :
  k ∈ group_keys key df ↔ ∃ x, x ∈ df ∧ key x = k.
Proof.
  unfold group_keys. rewrite merge_sort_Permutation, elem_of_remove_dups.
  rewrite list_elem_of_fmap. naive_solver.
Qed.

Lemma NoDup_group_keys df : NoDup (group_keys key df).
Proof.
  unfold group_keys. rewrite merge_sort_Permutation.
  apply NoDup_remove_dups.
Qed.

(** Concatenating one block of rows per key, each block holding rows of
    its own key only: the rows of key [k0] are those of block [k0]. *)
Lemma filter_key_bind (g : Z → list A) (ks : list Z) k0 :
  NoDup ks →
  (∀ k x, x ∈ g k → key x = k) →
  filter (λ x, key x = k0) (ks ≫= g) =
  if decide (k0 ∈ ks) then g k0 else [].
Proof.
  intros Hnd Hg. induction Hnd as [|k ks Hk Hnd IH].
  - by rewrite decide_False by by intros ?%elem_of_nil.
  - rewrite bind_cons, filter_app, IH. destruct (decide (k = k0)) as [->|Hne].
    + rewrite (decide_False (P := k0 ∈ ks)) by done.
      rewrite (decide_True (P := k0 ∈ k0 :: ks)) by left.
      rewrite app_nil_r. apply filter_all. intros x Hx. by apply Hg in Hx.
    + assert (filter (λ x, key x = k0) (g k) = []) as ->.
      { apply elem_of_nil_inv. intros x [Hx Hin]%list_elem_of_filter.
        apply Hg in Hin. congruence. }
      simpl. apply decide_ext. rewrite elem_of_cons. naive_solver.
Qed.

Context (Q : A → Prop) `{!∀ x, Decision (Q x)}.

Lemma elem_of_groupby_apply_filter df x :
  x ∈ groupby_apply key (filter Q) df ↔ x ∈ df ∧ Q x.
Proof.
  unfold groupby_apply. rewrite list_elem_of_bind. split.
  - intros (k & Hx & _). apply list_elem_of_filter in Hx as [HQ Hx].
    apply list_elem_of_filter in Hx as [_ Hx]. done.
  - intros [Hx HQ]. exists (key x). split.
    + by rewrite !list_elem_of_filter.
    + apply elem_of_group_keys. eauto.
Qed.

(** Within one group the frame order is kept. *)
Lemma filter_key_groupby_apply df k0 :
  filter (λ x, key x = k0) (groupby_apply key (filter Q) df) =
  filter (λ x, key x = k0) (filter Q df).
Proof.
  unfold groupby_apply.
  rewrite (filter_key_bind _ (group_keys key df)).
  - case_decide as Hk.
    + rewrite !list_filter_filter. apply list_filter_iff. naive_solver.
    + symmetry. apply elem_of_nil_inv.
      intros x [Hx [_ Hin]%list_elem_of_filter]%list_elem_of_filter.
      apply Hk, elem_of_group_keys. eauto.
  - apply NoDup_group_keys.
  - intros k x [_ [? _]%list_elem_of_filter]%list_elem_of_filter. done.
Qed.

Lemma filter_groupby_apply (P : A → Prop) `{!∀ x, Decision (P x)} df k0 :
  (∀ x, P x → key x = k0) →
  filter P (groupby_apply key (filter Q) df) = filter P (filter Q df).
Proof.
  intros HP.
  rewrite <-(list_filter_filter_l P (λ x, key x = k0)) by done.
  rewrite filter_key_groupby_apply. by rewrite list_filter_filter_l.
Qed.
End groupby_apply.

Section groupby_head.
Context {A : Type} `{Countable K} (key : A → K) (n : nat).

Lemma groupby_head_from_sublist seen df :
  groupby_head_from key n seen df `sublist_of` df.
Proof.
  revert seen. induction df as [|x df IH]; intros seen; simpl; [done|].
  case_decide; [by apply sublist_skip|by apply sublist_cons].
Qed.

(** Of each group the result holds the first rows, up to [n] counting
    the rows already met. *)
Lemma filter_key_groupby_head_from seen df k :
  filter (λ x, key x = k) (groupby_head_from key n seen df) =
  take (n - default 0%nat (seen !! k)) (filter (λ x, key x = k) df).
Proof.
  revert seen. induction df as [|x df IH]; intros seen; simpl.
  - symmetry. apply take_nil.
  - rewrite (filter_cons _ x df). destruct (decide (key x = k)) as [<-|Hne].
    + case_decide as Hc.
      * rewrite filter_cons_True by done. rewrite IH, lookup_insert_eq. simpl.
        replace (n - default 0 (seen !! key x))%nat
          with (S (n - S (default 0 (seen !! key x))))%nat by lia.
        done.
      * rewrite IH, lookup_insert_eq. simpl.
        replace (n - default 0 (seen !! key x))%nat with 0%nat by lia.
        replace (n - S (default 0 (seen !! key x)))%nat with 0%nat by lia.
        by rewrite !take_0.
    + case_decide.
      * rewrite filter_cons_False by done.
        by rewrite IH, lookup_insert_ne.
      * by rewrite IH, lookup_insert_ne.
Qed.

Lemma groupby_head_sublist df : groupby_head key n df `sublist_of` df.
Proof. apply groupby_head_from_sublist. Qed.

Lemma filter_key_groupby_head df k :
  filter (λ x, key x = k) (groupby_head key n df) =
  take n (filter (λ x, key x = k) df).
Proof.
  unfold groupby_head. rewrite filter_key_groupby_head_from.
  rewrite lookup_empty. simpl. by rewrite Nat.sub_0_r.
Qed.
End groupby_head.

End PandasFacts.

(** ** Facts about the cells of the notebook *)

Module NotebookFacts.
Import Pandas PandasFacts Notebook.

(** *** The result monad *)

Lemma mapM_result_Ok {A B} (f : A → result B) l l' :
  mapM_result f l = Ok l' → Forall2 (λ a b, f a = Ok b) l l'.
Proof.
  revert l'. induction l as [|a l IH]; intros l'; simpl.
  - intros [= <-]. constructor.
  - destruct (f a) as [b|e] eqn:Hfa; simpl; [|done].
    destruct (mapM_result f l) as [bs|e]; simpl; [|done].
    intros [= <-]. constructor; [done|by apply IH].
Qed.



(** *** [get_images] *)

Lemma photo_cell_Some j r u :
  photo_cell j r = Some u ↔ photos r !! j = Some (Some u).
Proof.
  unfold photo_cell. destruct (photos r !! j) as [[?|]|]; naive_solver.
Qed.

Lemma photos_melted_columns df :
  dropna_value (melt df) = seq 0 (photo_columns df) ≫= column df.
Proof.
  unfold dropna_value, melt.
  induction (seq 0 (photo_columns df)) as [|j js IH]; [done|].
  rewrite !bind_cons, omap_app, IH. f_equal.
  unfold column. clear. induction df as [|r df IH]; [done|].
  csimpl. rewrite IH. by destruct (photo_cell j r).
Qed.



Lemma elem_of_photos_melted df m :
  m ∈ dropna_value (melt df) ↔
  ∃ r, r ∈ df ∧ Some (value m) ∈ photos r ∧
       mp_id m = pet_id r ∧ mp_breed0 m = breed0 r ∧ mp_breed1 m = breed1 r.
Proof.
  rewrite photos_melted_columns, list_elem_of_bind. split.
  - intros (j & (r & Hr & Hm)%list_elem_of_omap & _).
    destruct (photo_cell j r) as [u|] eqn:Hcell; simplify_eq/=.
    exists r. split_and!; try done.
    apply photo_cell_Some in Hcell. by eapply list_elem_of_lookup_2.
  - intros (r & Hr & Hu & Hid & Hb0 & Hb1).
    apply list_elem_of_lookup in Hu as [j Hj]. exists j. split.
    + apply list_elem_of_omap. exists r. split; [done|].
      apply photo_cell_Some in Hj. rewrite Hj. simpl.
      destruct m; simplify_eq/=. done.
    + apply elem_of_seq. apply lookup_lt_Some in Hj.
      assert (length (photos r) ≤ photo_columns df)%nat; [|lia].
      apply max_list_elem_of_le, list_elem_of_fmap. eauto.
Qed.

Lemma elem_of_breeds1 df p :
  p ∈ breeds1 (dropna_value (melt df)) ↔
  ∃ r, r ∈ df ∧ Some (img p) ∈ photos r ∧
       id_ p = pet_id r ∧ breed p = breed0 r.
Proof.
  unfold breeds1. rewrite list_elem_of_fmap. split.
  - intros (m & -> & (r & ? & ? & ? & ? & ?)%elem_of_photos_melted).
    exists r. simpl. done.
  - intros (r & Hr & Hu & Hid & Hb).
    exists (MeltedPhoto (pet_id r) (breed0 r) (breed1 r) (img p)). split.
    + destruct p; simplify_eq/=. done.
    + apply elem_of_photos_melted. exists r. done.
Qed.

Lemma elem_of_breeds2 df p :
  p ∈ breeds2 (dropna_value (melt df)) ↔
  ∃ r, r ∈ df ∧ Some (img p) ∈ photos r ∧
       id_ p = pet_id r ∧ breed1 r = Some (breed p).
Proof.
  unfold breeds2. rewrite list_elem_of_omap. split.
  - intros (m & (r & ? & ? & ? & ? & Hb1)%elem_of_photos_melted & Hp).
    destruct (mp_breed1 m) as [b|] eqn:Hb; simplify_eq/=.
    exists r. simpl. done.
  - intros (r & Hr & Hu & Hid & Hb).
    exists (MeltedPhoto (pet_id r) (breed0 r) (breed1 r) (img p)). split.
    + apply elem_of_photos_melted. exists r. done.
    + simpl. rewrite Hb. simpl. destruct p; simplify_eq/=. done.
Qed.

Global Instance whole_row_inj : Inj (=) (=) whole_row.
Proof. intros [] [] [=]. by subst. Qed.

(** Full-row deduplication keeps the set of rows. *)
Lemma elem_of_drop_duplicates_whole_row (df : list photo) p :
  p ∈ drop_duplicates whole_row df ↔ p ∈ df.
Proof.
  split.
  - intros Hp. by apply elem_of_drop_duplicates_from in Hp as [? _].
  - intros Hp.
    destruct (head (filter (λ y, whole_row y = whole_row p) df))
      as [q|] eqn:Hq.
    + pose proof Hq as [_ Heq%(inj _)]%head_filter_elem_of. subst q.
      by apply elem_of_drop_duplicates.
    + by destruct (proj1 (head_filter_None _ _) Hq _ Hp).
Qed.

Lemma elem_of_get_images df p :
  p ∈ get_images df ↔
  ∃ r, r ∈ df ∧ Some (img p) ∈ photos r ∧ id_ p = pet_id r ∧
       (breed p = breed0 r ∨ breed1 r = Some (breed p)).
Proof.
  unfold get_images.
  rewrite elem_of_drop_duplicates_whole_row, elem_of_app.
  rewrite elem_of_breeds1, elem_of_breeds2. naive_solver.
Qed.

Lemma NoDup_get_images df : NoDup (get_images df).
Proof.
  apply (NoDup_fmap_1 whole_row). apply NoDup_drop_duplicates_from.
Qed.

(** Among the rows of [get_images] with a given (img, id), the first one
    carries the primary breed of a pet with that id and photo: the rows of
    [breeds1] come before those of [breeds2]. *)
Lemma get_images_first_primary df k p :
  head (filter (λ q, (img q, id_ q) = k) (get_images df)) = Some p →
  ∃ r, r ∈ df ∧ Some (img p) ∈ photos r ∧ id_ p = pet_id r ∧
       breed p = breed0 r.
Proof.
  unfold get_images.
  rewrite head_filter_drop_duplicates
    by (by intros x y ->%(inj whole_row)).
  rewrite filter_app. intros [Hp|[Hnone Hp]]%head_app_Some.
  - apply head_filter_elem_of in Hp as [Hp _]. by apply elem_of_breeds1.
  - apply head_filter_elem_of in Hp as [Hp Hk].
    apply elem_of_breeds2 in Hp as (r & Hr & Hu & Hid & _).
    assert (Photo (id_ p) (breed0 r) (img p) ∈
              breeds1 (dropna_value (melt df))) as Hq.
    { apply elem_of_breeds1. exists r. done. }
    destruct (proj1 (head_filter_None _ _) Hnone _ Hq). exact Hk.
Qed.

(** *** The [image_width] column *)

Lemma add_image_width_Ok df szd :
  add_image_width df = Ok szd →
  row <$> szd = df ∧
  ∀ x, x ∈ szd → image_width_of (img (row x)) = Ok (image_width x).
Proof.
  intros Hall%mapM_result_Ok. induction Hall as [|p x df szd Hx _ [IH1 IH2]].
  - split; [done|]. by intros x ?%elem_of_nil.
  - destruct (image_width_of (img p)) as [w|] eqn:Hw; simplify_eq/=.
    split; [by f_equal|].
    intros x [->|Hx]%elem_of_cons; [done|by apply IH2].
Qed.





(** *** [cat_images_largest] and the frames after it *)

Lemma fmap_Ok_inv {A B} (f : A → B) (m : result A) y :
  f <$> m = Ok y → ∃ x, m = Ok x ∧ y = f x.
Proof. destruct m; intros [= <-]; eauto. Qed.

Lemma cat_images_largest_Ok df pre :
  cat_images_largest df = Ok pre →
  ∃ szd, add_image_width (get_images df) = Ok szd ∧
         pre = sanitize_breed <$> largest szd.
Proof.
  unfold cat_images_largest.
  destruct (add_image_width (get_images df)) as [szd|]; [|done].
  intros [= <-]. eauto.
Qed.

Lemma breed_images_Ok df post :
  breed_images df = Ok post →
  ∃ pre, cat_images_largest df = Ok pre ∧ post = drop_duplicates img_id pre.
Proof. apply fmap_Ok_inv. Qed.

Lemma breed_images_5000_Ok df capped :
  breed_images_5000 df = Ok capped →
  ∃ post, breed_images df = Ok post ∧
          capped = groupby_head (λ x, breed (row x)) breed_cap post.
Proof. apply fmap_Ok_inv. Qed.

Lemma breed_list_new_Ok df out :
  breed_list_new df = Ok out →
  ∃ capped, breed_images_5000 df = Ok capped ∧
            out = imap (λ i x, (i, breed (row x), img (row x))) capped.
Proof. apply fmap_Ok_inv. Qed.

Lemma elem_of_breed_list_new (capped : list sized) i b u :
  (i, b, u) ∈ imap (λ i x, (i, breed (row x), img (row x))) capped ↔
  ∃ x, capped !! i = Some x ∧ b = breed (row x) ∧ u = img (row x).
Proof.
  rewrite list_elem_of_lookup. split.
  - intros [j Hj]. rewrite list_lookup_imap in Hj.
    destruct (capped !! j) as [x|] eqn:Hx; simplify_eq/=. eauto.
  - intros (x & Hx & -> & ->). exists i.
    by rewrite list_lookup_imap, Hx.
Qed.

Lemma elem_of_largest szd x :
  x ∈ largest szd ↔ x ∈ szd ∧ image_width x = target_width.
Proof.
  apply (elem_of_groupby_apply_filter _ (λ x, image_width x = target_width)).
Qed.

Lemma img_id_sanitize_breed x : img_id (sanitize_breed x) = img_id x.
Proof. done. Qed.

(** The first row of [cat_images_largest] with a given (img, id) is the
    first such row of width 500 of the frame before the grouping. *)
Lemma largest_first szd k :
  head (filter (λ x, img_id x = k) (sanitize_breed <$> largest szd)) =
  sanitize_breed <$>
    head (filter (λ x, img_id x = k ∧ image_width x = target_width) szd).
Proof.
  rewrite filter_fmap. unfold largest.
  rewrite (filter_groupby_apply _ _ _ _ k.2)
    by (intros x; unfold img_id; by intros <-).
  rewrite list_filter_filter.
  by destruct (filter _ szd).
Qed.

(** Every row that survives [drop_duplicates(subset=['img', 'id'])] has
    width 500 and carries the sanitized primary breed of a pet with its id
    and photo. *)
Lemma breed_images_primary df pre x :
  cat_images_largest df = Ok pre →
  x ∈ drop_duplicates img_id pre →
  image_width x = target_width ∧
  image_width_of (img (row x)) = Ok target_width ∧
  ∃ r, r ∈ df ∧ pet_id r = id_ (row x) ∧ Some (img (row x)) ∈ photos r ∧
       breed (row x) = sanitize (breed0 r).
Proof.
  intros (szd & Hszd & ->)%cat_images_largest_Ok Hx.
  apply add_image_width_Ok in Hszd as [Hrows Hwidth].
  apply elem_of_drop_duplicates in Hx. rewrite largest_first in Hx.
  destruct (head _) as [y|] eqn:Hy in Hx; simplify_eq/=.
  pose proof Hy as [Hin [Hk Hw]]%head_filter_elem_of.
  pose proof (Hwidth y Hin) as Hwy. rewrite Hw in Hwy.
  split_and!; [done..|].
  rewrite (filter_ext_in _ (λ x, img_id x = img_id y) szd) in Hy.
  2:{ intros z Hz. split; [tauto|]. intros Hkz. split; [done|].
      apply Hwidth in Hz. unfold img_id in Hkz.
      assert (img (row z) = img (row y)) as Himg by congruence.
      rewrite Himg, Hwy in Hz. congruence. }
  assert (head (filter (λ q, (img q, id_ q) = img_id y)
                  (get_images df)) = Some (row y)) as Hfirst.
  { rewrite <-Hrows, filter_fmap.
    change (λ x, (img (row x), id_ (row x)) = img_id y)
      with (λ x, img_id x = img_id y).
    by destruct (filter _ szd); simplify_eq/=. }
  apply get_images_first_primary in Hfirst as (r & ? & ? & ? & Hb).
  exists r. by rewrite Hb.
Qed.

(** A photo of width 500 of a pet of the frame has a row in
    [breed_images]. *)
Lemma breed_images_complete df pre r u :
  cat_images_largest df = Ok pre →
  r ∈ df → Some u ∈ photos r → image_width_of u = Ok target_width →
  ∃ x, x ∈ drop_duplicates img_id pre ∧ img_id x = (u, pet_id r).
Proof.
  intros (szd & Hszd & ->)%cat_images_largest_Ok Hr Hu Hw.
  apply add_image_width_Ok in Hszd as [Hrows Hwidth].
  assert (Photo (pet_id r) (breed0 r) u ∈ get_images df) as Hp.
  { apply elem_of_get_images. exists r. simpl. auto. }
  rewrite <-Hrows in Hp. apply list_elem_of_fmap in Hp as (y & Hy & Hin).
  assert (sanitize_breed y ∈ sanitize_breed <$> largest szd) as Hpre.
  { apply list_elem_of_fmap_2, elem_of_largest. split; [done|].
    apply Hwidth in Hin. rewrite <-Hy in Hin. simpl in Hin. congruence. }
  set (pre := sanitize_breed <$> largest szd) in *.
  destruct (head (filter (λ x, img_id x = (u, pet_id r)) pre))
    as [x|] eqn:Hx.
  - pose proof Hx as [_ Hk]%head_filter_elem_of. exists x. split; [|done].
    apply elem_of_drop_duplicates. by rewrite Hk.
  - destruct (proj1 (head_filter_None _ _) Hx _ Hpre).
    unfold img_id. simpl. by rewrite <-Hy.
Qed.

End NotebookFacts.

(** ** The stated properties of the pipeline *)

Module PipelineSpec.
Import Pandas PandasFacts Notebook NotebookFacts Samples.

(** *** Sanitized labels *)

Lemma chars_remove_char c s :
  PyStr.chars (PyStr.remove_char c s) = filter (λ a, a ≠ c) (PyStr.chars s).
Proof.
  induction s as [|a s IH]; [done|]. simpl. rewrite filter_cons.
  destruct (decide (a = c)) as [->|Hne].
  - by rewrite decide_False by tauto.
  - rewrite decide_True by done. simpl. by rewrite IH.
Qed.

Lemma chars_replace_char c d s :
  PyStr.chars (PyStr.replace_char c d s) =
  (λ a, if decide (a = c) then d else a) <$> PyStr.chars s.
Proof. induction s as [|a s IH]; [done|]. simpl. by rewrite IH. Qed.

Lemma chars_sanitize s :
  PyStr.chars (sanitize s) =
  filter (λ a, a ≠ "/"%char)
    ((λ a, if decide (a = " "%char) then "_"%char else a) <$> PyStr.chars s).
Proof. unfold sanitize. by rewrite chars_remove_char, chars_replace_char. Qed.

Lemma sanitize_clean s :
  (" "%char ∉ PyStr.chars (sanitize s)) ∧
  ("/"%char ∉ PyStr.chars (sanitize s)).
Proof.
  rewrite chars_sanitize. split.
  - intros [_ (a & Ha & _)%list_elem_of_fmap]%list_elem_of_filter.
    by case_decide.
  - by intros [? _]%list_elem_of_filter.
Qed.

(** *** Rows of the final list *)

(** Every triple of [breed_list_new] is a row of [breed_images]. *)
Lemma breed_list_new_row df out i b u :
  breed_list_new df = Ok out → (i, b, u) ∈ out →
  ∃ pre x, cat_images_largest df = Ok pre ∧
           x ∈ drop_duplicates img_id pre ∧
           b = breed (row x) ∧ u = img (row x).
Proof.
  intros (capped & (post & (pre & Hpre & ->)%breed_images_Ok & ->)
            %breed_images_5000_Ok & ->)%breed_list_new_Ok.
  intros (x & Hx%list_elem_of_lookup_2 & -> & ->)%elem_of_breed_list_new.
  exists pre, x. split_and!; [done| |done..].
  eapply elem_of_sublist; [done|]. apply groupby_head_sublist.
Qed.

(** The [breed] column of the final list is that of the capped frame. *)
Lemma breed_column (capped : list sized) :
  (λ t : nat * string * string, t.1.2) <$>
    imap (λ i x, (i, breed (row x), img (row x))) capped =
  (λ x, breed (row x)) <$> capped.
Proof.
  rewrite fmap_imap, <-imap_const. by apply imap_ext.
Qed.



Lemma img_id_NoDup df :
  (∀ post, breed_images df = Ok post → NoDup (img_id <$> post)) ∧
  (∀ capped, breed_images_5000 df = Ok capped →
     NoDup (img_id <$> capped)).
Proof.
  assert (∀ post, breed_images df = Ok post → NoDup (img_id <$> post))
    as Hpost.
  { intros post (pre & _ & ->)%breed_images_Ok.
    apply NoDup_drop_duplicates_from. }
  split; [done|].
  intros capped (post & Hp & ->)%breed_images_5000_Ok.
  eapply sublist_NoDup; [by apply Hpost|].
  apply fmap_sublist, groupby_head_sublist.
Qed.

(** C2. The image list holds at most one row per (id, url) pair, and this
    still holds after the per-breed cap and in the final list, whose
    triples are the capped rows numbered 0, 1, 2, ... in order. *)
Theorem no_duplicate_img_id df :
  (∀ post, breed_images df = Ok post → NoDup (img_id <$> post)) ∧
  (∀ capped, breed_images_5000 df = Ok capped →
     NoDup (img_id <$> capped)) ∧
  (∀ out, breed_list_new df = Ok out →
     ∃ capped, breed_images_5000 df = Ok capped ∧
               NoDup (img_id <$> capped) ∧
               out = imap (λ i x, (i, breed (row x), img (row x))) capped ∧
               (λ t, t.1.1) <$> out = seq 0 (length capped)).
Proof.
  destruct (img_id_NoDup df) as [Hpost Hcapped].
  split_and!; [done..|].
  intros out (capped & Hc & ->)%breed_list_new_Ok.
  exists capped. split_and!; [done|by apply Hcapped|done|].
  rewrite fmap_imap. rewrite <-(list_fmap_id (seq 0 (length capped))).
  apply (imap_seq_0 capped (λ i, i)).
Qed.

Lemma no_duplicate_img_id_witness :
  NoDup [ (photo_url "38018075" "500", 38018075);
          (photo_url "40181161" "500", 40181161) ].
Proof.
  apply (proj1 (no_duplicate_img_id cats)
           [ Sized (Photo 38018075 "Abyssinian"
                      (photo_url "38018075" "500")) 500;
             Sized (Photo 40181161 "Domestic_Short_Hair"
                      (photo_url "40181161" "500")) 500 ]).
  vm_compute. reflexivity.
Defined.

(** C3. No breed has more than 5000 rows in [breed_images_5000], nor more
    than 5000 triples in the final list. *)
Theorem breed_cap_respected df b :
  breed_cap = 5000%nat ∧
  (∀ capped, breed_images_5000 df = Ok capped →
     (length (filter (λ x, breed (row x) = b) capped) ≤ breed_cap)%nat) ∧
  (∀ out, breed_list_new df = Ok out →
     (length (filter (λ t : nat * string * string, t.1.2 = b) out)
        ≤ breed_cap)%nat).
Proof.
  assert (∀ capped, breed_images_5000 df = Ok capped →
    (length (filter (λ x, breed (row x) = b) capped) ≤ breed_cap)%nat)
    as Hcapped.
  { intros capped (post & _ & ->)%breed_images_5000_Ok.
    rewrite (filter_key_groupby_head (λ x, breed (row x))), length_take.
    apply Nat.le_min_l. }
  split_and!; [done..|].
  intros out (capped & Hc & ->)%breed_list_new_Ok.
  etrans; [|by apply Hcapped].
  pose proof (length_filter_fmap
    (λ t : nat * string * string, t.1.2) (λ c, c = b)
    (imap (λ i x, (i, breed (row x), img (row x))) capped)) as Hout.
  pose proof (length_filter_fmap
    (λ x, breed (row x)) (λ c, c = b) capped) as Hcap.
  rewrite breed_column in Hout. simpl in Hout, Hcap.
  apply Nat.eq_le_incl. congruence.
Qed.

Lemma breed_cap_respected_witness :
  (length (filter (λ t : nat * string * string, t.1.2 = "Abyssinian")
             [ (0%nat, "Abyssinian", photo_url "38018075" "500");
               (1%nat, "Domestic_Short_Hair", photo_url "40181161" "500") ])
     ≤ breed_cap)%nat.
Proof.
  apply (proj2 (proj2 (breed_cap_respected cats "Abyssinian"))).
  vm_compute. reflexivity.
Defined.

(** C4. Sanitization replaces every space by an underscore and deletes
    every slash, and every breed label of the final list is the sanitized
    primary label of a pet of the frame: it holds neither a space nor a
    slash. *)
Theorem final_labels_sanitized df :
  (∀ s, PyStr.chars (sanitize s) =
        filter (λ a, a ≠ "/"%char)
          ((λ a, if decide (a = " "%char) then "_"%char else a)
             <$> PyStr.chars s)) ∧
  (∀ out i b u, breed_list_new df = Ok out → (i, b, u) ∈ out →
     (" "%char ∉ PyStr.chars b) ∧ ("/"%char ∉ PyStr.chars b) ∧
     ∃ r, r ∈ df ∧ b = sanitize (breed0 r)).
Proof.
  split; [apply chars_sanitize|].
  intros out i b u Hout Hin.
  destruct (breed_list_new_row _ _ _ _ _ Hout Hin)
    as (pre & x & Hpre & Hx & -> & _).
  destruct (breed_images_primary _ _ _ Hpre Hx)
    as (_ & _ & r & Hr & _ & _ & ->).
  split_and!; [apply sanitize_clean..|eauto].
Qed.

Lemma final_labels_sanitized_witness :
  (" "%char ∉ PyStr.chars "Domestic_Short_Hair") ∧
  ("/"%char ∉ PyStr.chars "Domestic_Short_Hair") ∧
  ∃ r, r ∈ cats ∧ "Domestic_Short_Hair" = sanitize (breed0 r).
Proof.
  apply (proj2 (final_labels_sanitized cats)
           [ (0%nat, "Abyssinian", photo_url "38018075" "500");
             (1%nat, "Domestic_Short_Hair", photo_url "40181161" "500") ]
           1%nat "Domestic_Short_Hair" (photo_url "40181161" "500")).
  - vm_compute. reflexivity.
  - right. left.
Defined.

(** C9. The per-breed truncation keeps, of each breed, the first rows of
    that breed, at most 5000 of them, and the capped frame is a
    subsequence of the frame before the cap: the surviving rows keep their
    order. *)
Theorem cap_keeps_first_rows df post capped :
  breed_images df = Ok post →
  breed_images_5000 df = Ok capped →
  capped `sublist_of` post ∧
  ∀ b, filter (λ x, breed (row x) = b) capped =
       take 5000 (filter (λ x, breed (row x) = b) post).
Proof.
  intros Hpost (post' & Hpost' & ->)%breed_images_5000_Ok.
  assert (post' = post) as -> by congruence. split.
  - apply groupby_head_sublist.
  - intros b. apply (filter_key_groupby_head (λ x, breed (row x))).
Qed.

Lemma cap_keeps_first_rows_witness :
  let post :=
    [ Sized (Photo 38018075 "Abyssinian" (photo_url "38018075" "500")) 500;
      Sized (Photo 40181161 "Domestic_Short_Hair"
               (photo_url "40181161" "500")) 500 ] in
  post `sublist_of` post ∧
  ∀ b, filter (λ x, breed (row x) = b) post =
       take 5000 (filter (λ x, breed (row x) = b) post).
Proof.
  apply (cap_keeps_first_rows cats); vm_compute; reflexivity.
Defined.

(** C10. [drop_duplicates(subset=['img', 'id'])] keeps of each (img, id)
    pair the first row in frame order, and that row carries the primary
    breed of a pet with that id and photo: a row with the same pair and
    another label, such as the secondary breed, is not in [breed_images]. *)
Theorem dedup_keeps_primary_row df pre x :
  cat_images_largest df = Ok pre →
  x ∈ drop_duplicates img_id pre →
  breed_images df = Ok (drop_duplicates img_id pre) ∧
  (∃ l1 l2, pre = l1 ++ x :: l2 ∧ ∀ y, y ∈ l1 → img_id y ≠ img_id x) ∧
  (∃ r, r ∈ df ∧ pet_id r = id_ (row x) ∧ Some (img (row x)) ∈ photos r ∧
        breed (row x) = sanitize (breed0 r)) ∧
  (∀ y, y ∈ drop_duplicates img_id pre → img_id y = img_id x → y = x).
Proof.
  intros Hpre Hx. split_and!.
  - unfold breed_images. by rewrite Hpre.
  - apply elem_of_drop_duplicates, head_filter_Some in Hx
      as (l1 & l2 & ? & _ & ?). eauto.
  - by destruct (breed_images_primary _ _ _ Hpre Hx) as (_ & _ & ?).
  - intros y Hy Hk. apply elem_of_drop_duplicates in Hx, Hy.
    rewrite Hk in Hy. congruence.
Qed.

Lemma dedup_keeps_primary_row_witness :
  let x := Sized (Photo 2 "Siamese" (photo_url "2" "500")) 500 in
  let y := Sized (Photo 2 "Tabby" (photo_url "2" "500")) 500 in
  cat_images_largest two_labels = Ok [x; y] ∧
  breed_images two_labels = Ok [x] ∧
  ∃ r, r ∈ two_labels ∧ pet_id r = 2 ∧
       Some (photo_url "2" "500") ∈ photos r ∧
       "Siamese" = sanitize (breed0 r).
Proof.
  intros x y. split; [vm_compute; reflexivity|].
  destruct (dedup_keeps_primary_row two_labels [x; y] x)
    as (Hpost & _ & Hr & _).
  - vm_compute. reflexivity.
  - vm_compute. left.
  - split; [|exact Hr]. rewrite Hpost. vm_compute. reflexivity.
Defined.

(** *** Two breed labels *)

(** C5, as the notebook has it.  For a pet with two breed labels,
    [get_images] holds for each photo a row with the primary and a row
    with the secondary label, once each: when the two labels are the same
    this is a single row, since its [drop_duplicates()] compares whole
    rows.  [breed_images] then holds exactly one row for each (img, id)
    pair of width 500, and the capped frame at most one. *)
Theorem two_labels_one_row_per_photo df r b u :
  r ∈ df → breed1 r = Some b → Some u ∈ photos r →
  (Photo (pet_id r) (breed0 r) u ∈ get_images df ∧
   Photo (pet_id r) b u ∈ get_images df ∧
   NoDup (get_images df)) ∧
  (∀ post, breed_images df = Ok post → image_width_of u = Ok 500 →
     ∃ x, filter (λ y, img_id y = (u, pet_id r)) post = [x]) ∧
  (∀ capped, breed_images_5000 df = Ok capped →
     (length (filter (λ y, img_id y = (u, pet_id r)) capped) ≤ 1)%nat).
Proof.
  intros Hr Hb Hu. split_and!.
  - apply elem_of_get_images. exists r. simpl. auto.
  - apply elem_of_get_images. exists r. simpl. auto.
  - apply NoDup_get_images.
  - intros post (pre & Hpre & ->)%breed_images_Ok Hw.
    rewrite filter_key_NoDup by apply NoDup_drop_duplicates_from.
    destruct (head _) as [x|] eqn:Hx; [by exists x|].
    destruct (breed_images_complete _ _ _ _ Hpre Hr Hu Hw) as (x & Hin & Hk).
    by destruct (proj1 (head_filter_None _ _) Hx _ Hin).
  - intros capped Hc.
    rewrite filter_key_NoDup
      by by apply (proj2 (img_id_NoDup df)).
    destruct (head _); simpl; lia.
Qed.

Lemma two_labels_one_row_per_photo_witness :
  ∃ x, filter (λ y, img_id y = (photo_url "2" "500", 2))
         [Sized (Photo 2 "Siamese" (photo_url "2" "500")) 500] = [x].
Proof.
  refine (proj1 (proj2 (two_labels_one_row_per_photo two_labels
    (Pet 2 "Siamese" (Some "Tabby")
       [Some (photo_url "2" "500"); Some (photo_url "2" "300")])
    "Tabby" (photo_url "2" "500") _ _ _)) _ _ _).
  - left.
  - reflexivity.
  - left.
  - vm_compute. reflexivity.
  - vm_compute. reflexivity.
Defined.

(** C5 as stated fails: a pet with two breed labels, the same or not, and
    one photo of width 500 has one row in the final list, not two. *)
Lemma two_labels_not_two_rows :
  breed1 <$> same_labels = [Some "Siamese"] ∧
  breed_list_new same_labels =
    Ok [(0%nat, "Siamese", photo_url "1" "500")] ∧
  breed1 <$> two_labels = [Some "Tabby"] ∧
  breed_list_new two_labels =
    Ok [(0%nat, "Siamese", photo_url "2" "500")] ∧
  ¬ (∀ df r, r ∈ df → is_Some (breed1 r) →
       ∃ x y rest, breed_list_new df = Ok (x :: y :: rest)).
Proof.
  split_and!; [vm_compute; reflexivity..|].
  intros Hclaim.
  destruct (Hclaim two_labels
              (Pet 2 "Siamese" (Some "Tabby")
                 [Some (photo_url "2" "500"); Some (photo_url "2" "300")]))
    as (x & y & rest & Hout); [left|by eexists|].
  vm_compute in Hout. discriminate Hout.
Qed.

(** *** One photo at five widths *)


Section five_widths.
Context (r : pet) (u50 u60 u95 u300 u500 : string).
Hypothesis photos_r :
  photos r = [Some u50; Some u60; Some u95; Some u300; Some u500].
Hypothesis width_50 : image_width_of u50 = Ok 50.
Hypothesis width_60 : image_width_of u60 = Ok 60.
Hypothesis width_95 : image_width_of u95 = Ok 95.
Hypothesis width_300 : image_width_of u300 = Ok 300.
Hypothesis width_500 : image_width_of u500 = Ok 500.




End five_widths.



(** *** Missing and ill-formed photo cells *)

Lemma max_list_mono (l1 l2 : list nat) :
  (∀ n, n ∈ l1 → n ∈ l2) → (max_list l1 ≤ max_list l2)%nat.
Proof.
  induction l1 as [|n l1 IH]; intros Hsub; simpl; [lia|].
  apply Nat.max_lub.
  - apply max_list_elem_of_le, Hsub. left.
  - apply IH. intros m Hm. apply Hsub. by right.
Qed.

Section no_photo.
Context (df1 df2 : list pet) (r : pet).
Hypothesis no_photo : ∀ c, c ∈ photos r → c = None.




End no_photo.




End PipelineSpec.

(** ** The stated property of the downloader *)

Module DownloaderSpec.
Import Notebook Downloader Samples.

(** The error code a task prints: that of an [HTTPError]. *)
Lemma download_HTTPError net item w code :
  net item.2 = Some (HTTPError code) →
  download_breed_images net item w = (Ok (), print code w).
Proof.
  intros Hnet. unfold download_breed_images, urlretrieve. by rewrite Hnet.
Qed.

Lemma download_retrieved net item w :
  net item.2 = None →
  download_breed_images net item w =
  (Ok (), World ((filename_of item, item.2) :: files w) (stdout w)).
Proof.
  intros Hnet. unfold download_breed_images, urlretrieve. by rewrite Hnet.
Qed.


(** When every failure is an [HTTPError], no task raises: all tasks are
    run, and the codes of the failed ones are printed. *)
Lemma run_tasks_HTTPError net items w :
  (∀ item, item ∈ items →
     net item.2 = None ∨ ∃ code, net item.2 = Some (HTTPError code)) →
  (run_tasks (download_breed_images net) items w).1 =
    replicate (length items) (Ok ()) ∧
  stdout (run_tasks (download_breed_images net) items w).2 =
    stdout w ++ omap (λ item, match net item.2 with
                              | Some (HTTPError code) => Some code
                              | _ => None
                              end) items.
Proof.
  revert w. induction items as [|item items IH]; intros w Hall; simpl.
  - by rewrite app_nil_r.
  - destruct (IH (download_breed_images net item w).2) as [IH1 IH2].
    { intros ??. apply Hall. by right. }
    destruct (Hall item) as [Hnet|[code Hnet]]; [left|..].
    + rewrite download_retrieved in * by done.
      destruct (run_tasks _ items _) as [rs w2]. simpl in *.
      rewrite Hnet. by rewrite IH1, IH2.
    + rewrite download_HTTPError with (code := code) in * by done.
      destruct (run_tasks _ items _) as [rs w2]. simpl in *.
      rewrite Hnet. simpl. by rewrite IH1, IH2, <-app_assoc.
Qed.

Lemma mapM_result_replicate {A} n (a : A) :
  mapM_result (λ r, r) (replicate n (Ok a)) = Ok (replicate n a).
Proof. induction n as [|n IH]; [done|]. simpl. by rewrite IH. Qed.




End DownloaderSpec.

(** ** Facts about the string operations *)

Module PyStrFacts.
Import PyStr.

Lemma string_app_nil_l s : "" +:+ s = s.
Proof. done. Qed.

Lemma string_app_cons a s t : String a s +:+ t = String a (s +:+ t).
Proof. done. Qed.

Lemma chars_app a b : chars (a +:+ b) = chars a ++ chars b.
Proof.
  induction a as [|c a IH]; [done|].
  rewrite string_app_cons. simpl. by rewrite IH.
Qed.

Global Instance chars_inj : Inj (=) (=) chars.
Proof.
  intros a. induction a as [|c a IH]; intros [|d b] Heq; simplify_eq/=;
    [done|]. f_equal. by apply IH.
Qed.

Lemma chars_surj l : ∃ s, chars s = l.
Proof.
  induction l as [|c l [s <-]]; [by exists ""|]. by exists (String c s).
Qed.

Lemma length_chars s : length (chars s) = String.length s.
Proof. induction s as [|c s IH]; [done|]. simpl. by rewrite IH. Qed.

Lemma drop_prefix_Some p s r : drop_prefix p s = Some r ↔ s = p +:+ r.
Proof.
  revert s. induction p as [|a p IH]; intros s; simpl.
  - naive_solver.
  - destruct s as [|b s]; [split; intros; discriminate|].
    case_decide as Hab.
    + subst. rewrite IH. split; [by intros ->|]. by intros [= ->].
    + split; [done|]. intros [= ? _]. by destruct Hab.
Qed.

Ltac string_app :=
  repeat (rewrite ?string_app_nil_l, ?string_app_cons in * ).

Lemma after_first_None pat s :
  after_first pat s = None ↔ ∀ pre post, s ≠ pre +:+ pat +:+ post.
Proof.
  induction s as [|a s IH]; simpl.
  - destruct (drop_prefix pat "") as [r|] eqn:Hr.
    + apply drop_prefix_Some in Hr. split; [done|].
      intros Hno. by destruct (Hno "" r).
    + split; [|done]. intros _ pre post Heq.
      destruct pre; [|done]. string_app.
      apply drop_prefix_Some in Heq. congruence.
  - destruct (drop_prefix pat (String a s)) as [r|] eqn:Hr.
    + apply drop_prefix_Some in Hr. split; [done|].
      intros Hno. by destruct (Hno "" r).
    + rewrite IH. split.
      * intros Hno [|b pre] post Heq; string_app.
        -- apply drop_prefix_Some in Heq. congruence.
        -- injection Heq as -> Heq. by eapply Hno.
      * intros Hno pre post ->. by eapply (Hno (String a pre)).
Qed.

Lemma after_first_Some pat s rest :
  after_first pat s = Some rest ↔
  ∃ pre, s = pre +:+ pat +:+ rest ∧
         ∀ pre' post', s = pre' +:+ pat +:+ post' →
                       (String.length pre ≤ String.length pre')%nat.
Proof.
  split.
  - revert rest. induction s as [|a s IH]; intros rest; simpl.
    + destruct (drop_prefix pat "") as [r|] eqn:Hr; [|done].
      intros [= ->]. apply drop_prefix_Some in Hr. exists "".
      split; [done|]. simpl. lia.
    + destruct (drop_prefix pat (String a s)) as [r|] eqn:Hr.
      * intros [= ->]. apply drop_prefix_Some in Hr. exists "".
        split; [done|]. simpl. lia.
      * intros (pre & -> & Hleft)%IH. exists (String a pre).
        split; [done|]. intros [|b pre'] post' Heq; string_app.
        -- apply drop_prefix_Some in Heq. congruence.
        -- injection Heq as -> Heq. apply Hleft in Heq. simpl. lia.
  - intros (pre & -> & Hleft). induction pre as [|a pre IH]; simpl.
    + string_app.
      assert (drop_prefix pat (pat +:+ rest) = Some rest) as Hr
        by by apply drop_prefix_Some.
      destruct (pat +:+ rest); simpl; by rewrite Hr.
    + string_app.
      destruct (drop_prefix pat (String a (pre +:+ pat +:+ rest)))
        as [r|] eqn:Hr.
      * apply drop_prefix_Some in Hr.
        specialize (Hleft "" r Hr). simpl in Hleft. lia.
      * apply IH. intros pre' post' Heq.
        specialize (Hleft (String a pre') post'). string_app.
        rewrite Heq in Hleft. specialize (Hleft eq_refl). simpl in Hleft. lia.
Qed.

Lemma before_first_app c a b :
  c ∉ chars a → before_first c (a +:+ String c b) = a.
Proof.
  induction a as [|d a IH]; intros Hc; string_app; simpl.
  - by rewrite decide_True.
  - simpl in Hc. rewrite not_elem_of_cons in Hc. destruct Hc as [Hne Hc].
    rewrite decide_False by done. by rewrite IH.
Qed.

Lemma before_first_id c s : c ∉ chars s → before_first c s = s.
Proof.
  induction s as [|d s IH]; intros Hc; simpl; [done|].
  simpl in Hc. rewrite not_elem_of_cons in Hc. destruct Hc as [Hne Hc].
  rewrite decide_False by done. by rewrite IH.
Qed.

Lemma before_first_spec c s :
  (c ∉ chars (before_first c s)) ∧
  (s = before_first c s ∨ ∃ rest, s = before_first c s +:+ String c rest).
Proof.
  induction s as [|d s [IH1 IH2]]; simpl.
  - split; [by intros ?%elem_of_nil|by left].
  - case_decide as Hd.
    + subst. split; [by intros ?%elem_of_nil|]. right. by exists s.
    + simpl. split; [rewrite not_elem_of_cons; by split|].
      destruct IH2 as [IH2|[rest IH2]].
      * left. by rewrite <-IH2.
      * right. exists rest. string_app. by rewrite <-IH2.
Qed.

Lemma chars_rev_app s t :
  chars (String.rev_app s t) = reverse (chars s) ++ chars t.
Proof.
  revert t. induction s as [|a s IH]; intros t; simpl; [done|].
  rewrite IH, reverse_cons, <-app_assoc. done.
Qed.

Lemma chars_rev s : chars (String.rev s) = reverse (chars s).
Proof. unfold String.rev. by rewrite chars_rev_app, app_nil_r. Qed.

Lemma rev_involutive s : String.rev (String.rev s) = s.
Proof. apply (inj chars). by rewrite !chars_rev, reverse_involutive. Qed.

Lemma lstrip_id s :
  Forall (λ c, is_space c = false) (chars s) → lstrip s = s.
Proof. destruct s as [|a s]; [done|]. simpl. intros [-> _]%Forall_cons. done. Qed.

Lemma strip_id s :
  Forall (λ c, is_space c = false) (chars s) → strip s = s.
Proof.
  intros Hs. unfold strip. rewrite (lstrip_id s) by done.
  rewrite lstrip_id by (rewrite chars_rev; by apply Forall_reverse).
  apply rev_involutive.
Qed.

Lemma digit_of_pretty_N_char d :
  (d < 10)%N → digit_of (pretty_N_char d) = Some (Z.of_N d).
Proof.
  intros Hd.
  assert (d = 0 ∨ d = 1 ∨ d = 2 ∨ d = 3 ∨ d = 4 ∨ d = 5 ∨ d = 6 ∨ d = 7
          ∨ d = 8 ∨ d = 9)%N as Hcases by lia.
  repeat destruct Hcases as [->|Hcases]; try done. by subst.
Qed.

Lemma digit_of_Some c d :
  digit_of c = Some d → is_space c = false ∧ c ≠ "&"%char ∧ c ≠ "/"%char ∧
                        c ≠ "-"%char ∧ c ≠ "+"%char ∧ c ≠ "_"%char.
Proof.
  unfold digit_of, is_space. intros Hd.
  destruct (_ && _)%N eqn:Hrange in Hd; [|done].
  apply andb_true_iff in Hrange as [H1%N.leb_le H2%N.leb_le].
  split.
  - apply orb_false_iff. split; apply andb_false_iff.
    + right. apply N.leb_gt. lia.
    + right. apply N.leb_gt. lia.
  - split_and!; intros ->; vm_compute in H1, H2; done.
Qed.

Lemma pretty_N_go_digits x s :
  Forall (λ c, is_Some (digit_of c)) (chars s) →
  Forall (λ c, is_Some (digit_of c)) (chars (pretty_N_go x s)).
Proof.
  revert s. induction (N.lt_wf_0 x) as [x _ IH]; intros s Hs.
  assert (x = 0 ∨ 0 < x)%N as [->|Hx] by lia; [by rewrite pretty_N_go_0|].
  rewrite pretty_N_go_step by done. apply IH; [by apply N.div_lt|].
  simpl. constructor; [|done].
  rewrite digit_of_pretty_N_char by (by apply N.mod_lt). by eexists.
Qed.

Lemma digits_pretty_N_go x :
  (0 < x)%N →
  ∃ p, ∀ s acc b,
    digits b acc (pretty_N_go x s) = digits true (acc * p + Z.of_N x) s.
Proof.
  induction (N.lt_wf_0 x) as [x _ IH]; intros Hx.
  assert (digit_of (pretty_N_char (x `mod` 10)) =
          Some (Z.of_N x `mod` 10)) as Hd.
  { rewrite digit_of_pretty_N_char by (by apply N.mod_lt).
    by rewrite N2Z.inj_mod. }
  pose proof (Z.div_mod (Z.of_N x) 10) as Hdm.
  destruct (N.eq_0_gt_0_cases (x `div` 10)) as [H0|Hpos].
  - exists 10. intros s acc b. rewrite pretty_N_go_step, H0 by done.
    rewrite pretty_N_go_0. simpl. rewrite Hd.
    assert (Z.of_N x `div` 10 = 0) as Hq.
    { apply N.div_small_iff in H0; [|done]. apply Z.div_small. lia. }
    f_equal. lia.
  - destruct (IH (x `div` 10)%N) as [p Hp]; [by apply N.div_lt|done|].
    exists (10 * p). intros s acc b.
    rewrite pretty_N_go_step, Hp by done. simpl. rewrite Hd.
    rewrite N2Z.inj_div. f_equal. lia.
Qed.

Lemma sign_split a s :
  a ≠ "-"%char → a ≠ "+"%char →
  match String a s with
  | String "-" r => (true, r)
  | String "+" r => (false, r)
  | _ => (false, String a s)
  end = (false, String a s).
Proof. destruct a as [[] [] [] [] [] [] [] []]; done. Qed.

Lemma int_pretty_N x : PyStr.int (pretty x) = Ok (Z.of_N x).
Proof.
  unfold pretty, pretty_N. case_decide as Hx; [by subst|].
  destruct (digits_pretty_N_go x) as [p Hp]; [lia|].
  pose proof (pretty_N_go_digits x "" (Forall_nil_2 _)) as Hdigits.
  unfold PyStr.int. rewrite strip_id.
  2:{ eapply Forall_impl; [done|]. intros c [d Hd].
      by apply digit_of_Some in Hd as [? _]. }
  pose proof (Hp "" 0 false) as Hparse. simpl in Hparse.
  destruct (pretty_N_go x "") as [|a s] eqn:Hs; [done|].
  apply Forall_cons in Hdigits as [[d Hd] _].
  apply digit_of_Some in Hd as (_ & _ & _ & ? & ? & _).
  rewrite sign_split by done. by rewrite Hparse.
Qed.

Lemma int_pretty (z : Z) : PyStr.int (pretty z) = Ok z.
Proof.
  destruct z as [|q|q].
  - done.
  - apply (int_pretty_N (N.pos q)).
  - change (pretty (Z.neg q)) with ("-" +:+ pretty (N.pos q)).
    pose proof (int_pretty_N (N.pos q)) as Hpos.
    unfold pretty, pretty_N in *. rewrite decide_False in * by done.
    destruct (digits_pretty_N_go (N.pos q)) as [p Hp]; [lia|].
    pose proof (pretty_N_go_digits (N.pos q) "" (Forall_nil_2 _)) as Hdigits.
    unfold PyStr.int. rewrite strip_id.
    2:{ string_app. simpl. constructor; [done|].
        eapply Forall_impl; [done|]. intros c [d Hd].
        by apply digit_of_Some in Hd as [? _]. }
    string_app. rewrite (Hp "" 0 false). simpl. done.
Qed.

Lemma pretty_Z_chars (z : Z) :
  Forall (λ c, is_Some (digit_of c) ∨ c = "-"%char) (chars (pretty z)).
Proof.
  assert (∀ x : N, Forall (λ c, is_Some (digit_of c) ∨ c = "-"%char)
                     (chars (pretty x))) as HN.
  { intros x. unfold pretty, pretty_N. case_decide.
    - constructor; [left; by eexists|constructor].
    - eapply Forall_impl; [apply pretty_N_go_digits; constructor|].
      naive_solver. }
  destruct z as [|q|q]; [apply (HN 0%N)|apply (HN (N.pos q))|].
  change (pretty (Z.neg q)) with ("-" +:+ pretty (N.pos q)).
  string_app. simpl. constructor; [by right|apply HN].
Qed.

(** An occurrence of a pattern that starts before another one ends inside
    the text up to the last character of that other one. *)
Lemma occurrence_before {A} (P W T P' T' pat : list A) c :
  pat = W ++ [c] →
  P ++ pat ++ T = P' ++ pat ++ T' →
  (length P' < length P)%nat →
  ∃ B, P ++ W = P' ++ pat ++ B.
Proof.
  intros Hpat Heq Hlen. exists (drop (length (P' ++ pat)) (P ++ W)).
  rewrite app_assoc.
  rewrite <-(take_drop (length (P' ++ pat)) (P ++ W)) at 1. f_equal.
  assert (take (length (P' ++ pat)) (P ++ pat ++ T) = P' ++ pat) as Htake.
  { rewrite Heq, (app_assoc P'). by rewrite take_app_length. }
  etrans; [|exact Htake]. subst pat.
  replace (P ++ (W ++ [c]) ++ T) with ((P ++ W) ++ [c] ++ T)
    by (by rewrite <-!app_assoc).
  symmetry. apply take_app_le. rewrite !length_app. simpl. lia.
Qed.

Lemma width_leftmost pre tail :
  (∀ a b, pre +:+ "width" ≠ a +:+ "width=" +:+ b) →
  after_first "width=" (pre +:+ "width=" +:+ tail) = Some tail.
Proof.
  intros Hfresh. apply after_first_Some. exists pre. split; [done|].
  intros pre' post' Heq. apply Nat.le_ngt. intros Hlen.
  apply (f_equal chars) in Heq. rewrite !chars_app in Heq.
  rewrite <-!length_chars in Hlen.
  destruct (occurrence_before (chars pre) (chars "width") (chars tail)
              (chars pre') (chars post') (chars "width=") "="%char)
    as [B HB]; [done..|].
  destruct (chars_surj B) as [b <-].
  apply (Hfresh pre' b). apply (inj chars). by rewrite !chars_app.
Qed.

Lemma before_first_pretty (n : Z) tail :
  tail = "" ∨ (∃ rest, tail = String "&" rest) →
  before_first "&" (pretty n +:+ tail) = pretty n.
Proof.
  assert ("&"%char ∉ chars (pretty n)) as Hamp.
  { intros Hin. pose proof (pretty_Z_chars n) as Hall.
    rewrite Forall_forall in Hall. apply Hall in Hin as [[d Hd]|?]; [|done].
    by apply digit_of_Some in Hd as (_ & ? & _). }
  intros [->|[rest ->]].
  - replace (pretty n +:+ "") with (pretty n)
      by (apply (inj chars); by rewrite chars_app, app_nil_r).
    by apply before_first_id.
  - by apply before_first_app.
Qed.

Lemma string_app_assoc a b c : (a +:+ b) +:+ c = a +:+ b +:+ c.
Proof. apply (inj chars). by rewrite !chars_app, app_assoc. Qed.

Lemma string_app_nil_r a : a +:+ "" = a.
Proof. apply (inj chars). by rewrite chars_app, app_nil_r. Qed.

Lemma pretty_nat_digits (i : nat) :
  Forall (λ c, is_Some (digit_of c)) (chars (pretty i)).
Proof.
  unfold pretty, pretty_nat, pretty, pretty_N. case_decide.
  - constructor; [by eexists|constructor].
  - apply pretty_N_go_digits. constructor.
Qed.

Lemma pretty_nat_no_sep (i : nat) : "/"%char ∉ chars (pretty i).
Proof.
  intros Hin. pose proof (pretty_nat_digits i) as Hall.
  rewrite Forall_forall in Hall. apply Hall in Hin as [d Hd].
  by apply digit_of_Some in Hd as (_ & _ & ? & _).
Qed.

Lemma split_unique {A} (c : A) l1 r1 l2 r2 :
  l1 ++ c :: r1 = l2 ++ c :: r2 → c ∉ l1 → c ∉ l2 → l1 = l2 ∧ r1 = r2.
Proof.
  revert l2. induction l1 as [|a l1 IH]; intros [|b l2] Heq H1 H2;
    simplify_eq/=.
  - done.
  - destruct H2. left.
  - destruct H1. left.
  - rewrite not_elem_of_cons in H1, H2.
    destruct (IH l2) as [-> ->]; [done|tauto..|done].
Qed.

End PyStrFacts.

(** ** The width of a url and the sanitized labels *)

Module WidthSpec.
Import PyStr PyStrFacts PandasFacts Notebook NotebookFacts Samples PipelineSpec.

(** X1.  The width cell of a url of the form the API lists: for a url made of a
    prefix in which ['width='] does not occur (nor begins), ['width='], the
    decimal digits of [n], and then nothing or ['&'] and anything at all,
    [image_width] is [n] when [n] fits int64, and [OverflowError] is raised
    when it does not. *)
Theorem image_width_round_trip pre (n : Z) tail :
  (∀ a b, pre +:+ "width" ≠ a +:+ "width=" +:+ b) →
  tail = "" ∨ (∃ rest, tail = String "&" rest) →
  image_width_of (pre +:+ "width=" +:+ pretty n +:+ tail) =
  if decide (int64_min ≤ n ≤ int64_max) then Ok n else Raise OverflowError.
Proof.
  intros Hfresh Htail. unfold image_width_of.
  rewrite width_leftmost by done. simpl.
  rewrite before_first_pretty by done. unfold astype_int.
  by rewrite int_pretty.
Qed.

Lemma image_width_round_trip_witness :
  image_width_of (photo_url "40181161" "500") = Ok 500.
Proof.
  refine (image_width_round_trip
    "http://photos.petfinder.com/photos/pets/40181161/1/?bust=1513891215&"
    500 "&-x.jpg" _ _).
  - apply after_first_None. vm_compute. reflexivity.
  - right. eexists. reflexivity.
Defined.



Lemma map_space_id (l : list ascii) :
  " "%char ∉ l →
  (λ a, if decide (a = " "%char) then "_"%char else a) <$> l = l.
Proof.
  induction l as [|a l IH]; [done|]. rewrite not_elem_of_cons.
  intros [Hne Hl]. rewrite fmap_cons, IH by done.
  by rewrite decide_False by done.
Qed.

(** X3.  Sanitizing a label twice is the same as sanitizing it once; a label
    with neither a space nor a slash is left as it is; and a sanitized label
    is never longer than the label. *)
Theorem sanitize_idempotent s :
  sanitize (sanitize s) = sanitize s ∧
  ((" "%char ∉ chars s) → ("/"%char ∉ chars s) → sanitize s = s) ∧
  (String.length (sanitize s) ≤ String.length s)%nat.
Proof.
  assert (∀ t, (" "%char ∉ chars t) → ("/"%char ∉ chars t) → sanitize t = t)
    as Hclean.
  { intros t Hsp Hsl. apply (inj chars). rewrite chars_sanitize.
    rewrite map_space_id by done. apply filter_all.
    intros a Ha ->. done. }
  split_and!; [|apply Hclean|].
  - apply Hclean; apply sanitize_clean.
  - rewrite <-!length_chars, chars_sanitize.
    etrans; [apply length_filter|]. by rewrite length_fmap.
Qed.

Lemma sanitize_idempotent_witness : sanitize "Maine_Coon" = "Maine_Coon".
Proof.
  apply (proj1 (proj2 (sanitize_idempotent "Maine_Coon")));
    apply (bool_decide_unpack _); vm_compute; exact I.
Defined.

End WidthSpec.

(** ** More facts about the pandas operations *)

Module FrameSpec.
Import Pandas PandasFacts.

Section more_drop_duplicates.
Context {A : Type} `{Countable K} (key : A → K).

Lemma drop_duplicates_from_id seen df :
  NoDup (key <$> df) → (∀ x, x ∈ df → key x ∉ seen) →
  drop_duplicates_from key seen df = df.
Proof.
  revert seen. induction df as [|a df IH]; intros seen Hnd Hseen; [done|].
  rewrite fmap_cons in Hnd. apply NoDup_cons in Hnd as [Ha Hnd]. simpl.
  rewrite decide_False by (apply Hseen; left). f_equal. apply IH; [done|].
  intros x Hx [Heq%elem_of_singleton|Hin]%elem_of_union.
  - apply Ha. rewrite <-Heq. by apply list_elem_of_fmap_2.
  - eapply Hseen; [by right|done].
Qed.

Lemma drop_duplicates_keys df k :
  k ∈ key <$> drop_duplicates key df ↔ k ∈ key <$> df.
Proof.
  rewrite !list_elem_of_fmap. split.
  - intros (x & -> & Hx). exists x. split; [done|].
    by apply elem_of_drop_duplicates_from in Hx as [? _].
  - intros (x & -> & Hx).
    destruct (head (filter (λ y, key y = key x) df)) as [y|] eqn:Hy.
    + pose proof Hy as [_ Hk]%head_filter_elem_of. exists y. split; [done|].
      apply elem_of_drop_duplicates. by rewrite Hk.
    + by destruct (proj1 (head_filter_None _ _) Hy _ Hx).
Qed.

(** X4.  [drop_duplicates] loses no key: every key of the frame is the key of a
    row that is kept.  On a frame without duplicate keys it is the identity,
    and running it a second time changes nothing. *)
Theorem drop_duplicates_idempotent df :
  (∀ k, k ∈ key <$> drop_duplicates key df ↔ k ∈ key <$> df) ∧
  (NoDup (key <$> df) → drop_duplicates key df = df) ∧
  drop_duplicates key (drop_duplicates key df) = drop_duplicates key df.
Proof.
  assert (∀ l : list A, NoDup (key <$> l) → drop_duplicates key l = l)
    as Hid.
  { intros l Hl. apply drop_duplicates_from_id; [done|]. set_solver. }
  split_and!; [apply drop_duplicates_keys|apply Hid|].
  apply Hid, NoDup_drop_duplicates_from.
Qed.
End more_drop_duplicates.

Lemma drop_duplicates_idempotent_witness :
  drop_duplicates (λ b : string, b) ["Tabby"; "Siamese"] =
  ["Tabby"; "Siamese"].
Proof.
  apply (proj1 (proj2 (drop_duplicates_idempotent (λ b : string, b)
                         ["Tabby"; "Siamese"]))).
  apply (bool_decide_unpack _). vm_compute. exact I.
Defined.

Section more_groupby_apply.
Context {A : Type} (key : A → Z) (Q : A → Prop) `{!∀ x, Decision (Q x)}.

Lemma bind_filter_keys_Permutation (ks : list Z) (df : list A) :
  NoDup ks →
  ks ≫= (λ k, filter (λ x, key x = k) df) ≡ₚ filter (λ x, key x ∈ ks) df.
Proof.
  intros Hnd. induction Hnd as [|k ks Hk Hnd IH].
  - simpl. symmetry. apply Permutation_nil_r. apply elem_of_nil_inv.
    intros x [Hx _]%list_elem_of_filter. by apply elem_of_nil in Hx.
  - rewrite bind_cons, IH. clear IH.
    induction df as [|x df IHdf]; [done|].
    rewrite !filter_cons.
    destruct (decide (key x = k)) as [Hx|Hx].
    + rewrite decide_False by (by rewrite Hx).
      rewrite decide_True by (rewrite Hx; left). simpl. by rewrite IHdf.
    + destruct (decide (key x ∈ ks)) as [Hin|Hin].
      * rewrite decide_True by by right.
        rewrite <-Permutation_middle. by rewrite IHdf.
      * rewrite decide_False; [done|].
        intros [?|?]%elem_of_cons; done.
Qed.

Lemma groupby_apply_Permutation df :
  groupby_apply key (filter Q) df ≡ₚ filter Q df.
Proof.
  unfold groupby_apply.
  rewrite (list_bind_ext _ (λ k, filter (λ x, key x = k) (filter Q df))
             (group_keys key df) (group_keys key df)); [|intros k|done].
  - rewrite bind_filter_keys_Permutation by apply NoDup_group_keys.
    rewrite filter_all; [done|]. intros x [_ Hx]%list_elem_of_filter.
    apply elem_of_group_keys. eauto.
  - rewrite !list_filter_filter. apply list_filter_iff. naive_solver.
Qed.

Lemma bind_keys_StronglySorted (g : Z → list A) (ks : list Z) :
  StronglySorted Z.le ks →
  (∀ k x, x ∈ g k → key x = k) →
  StronglySorted Z.le (key <$> (ks ≫= g)).
Proof.
  intros Hks Hg. induction Hks as [|k ks Hks IH Hle]; [constructor|].
  rewrite bind_cons, fmap_app. apply StronglySorted_app_2.
  - intros k1 k2 (x1 & -> & Hx1)%list_elem_of_fmap
      (x2 & -> & Hx2)%list_elem_of_fmap.
    apply Hg in Hx1 as ->.
    apply list_elem_of_bind in Hx2 as (k' & Hx2 & Hk').
    apply Hg in Hx2 as ->. rewrite Forall_forall in Hle. by apply Hle.
  - assert (Forall (λ y, y = k) (key <$> g k)) as Hall.
    { apply Forall_fmap, Forall_forall. intros x Hx. by apply Hg. }
    induction Hall as [|y l -> Hl IHl]; constructor; [done|].
    eapply Forall_impl; [done|]. by intros ? ->.
  - done.
Qed.

Lemma groupby_apply_StronglySorted df :
  StronglySorted Z.le (key <$> groupby_apply key (filter Q) df).
Proof.
  apply bind_keys_StronglySorted.
  - apply StronglySorted_merge_sort; apply _.
  - intros k x [_ [? _]%list_elem_of_filter]%list_elem_of_filter. done.
Qed.
End more_groupby_apply.

Lemma sublist_StronglySorted {A} (R : relation A) l1 l2 :
  l1 `sublist_of` l2 → StronglySorted R l2 → StronglySorted R l1.
Proof.
  induction 1 as [|x l1 l2 Hsub IH|x l1 l2 Hsub IH]; [done|..].
  - intros [Hall Hs]%StronglySorted_cons. apply StronglySorted_cons.
    split; [|by apply IH]. rewrite Forall_forall in *.
    intros y Hy. apply Hall. by eapply elem_of_sublist.
  - intros [_ Hs]%StronglySorted_cons. by apply IH.
Qed.

Section more_groupby_head.
Context {A : Type} `{Countable K} (key : A → K) (n : nat).

Lemma groupby_head_from_id seen df :
  (∀ k, (default 0 (seen !! k) + length (filter (λ x, key x = k) df) ≤ n)%nat) →
  groupby_head_from key n seen df = df.
Proof.
  revert seen. induction df as [|x df IH]; intros seen Hcap; [done|]. simpl.
  pose proof (Hcap (key x)) as Hx. rewrite filter_cons_True in Hx by done.
  simpl in Hx. rewrite decide_True by lia. f_equal. apply IH. intros k.
  specialize (Hcap k). rewrite filter_cons in Hcap.
  destruct (decide (key x = k)) as [<-|Hne].
  - rewrite lookup_insert_eq. simpl in *. lia.
  - by rewrite lookup_insert_ne.
Qed.

Lemma groupby_head_id_iff df :
  groupby_head key n df = df ↔
  ∀ k, (length (filter (λ x, key x = k) df) ≤ n)%nat.
Proof.
  split.
  - intros Heq k. rewrite <-Heq at 1.
    rewrite filter_key_groupby_head, length_take. lia.
  - intros Hcap. apply groupby_head_from_id. intros k.
    rewrite lookup_empty. simpl. apply Hcap.
Qed.
End more_groupby_head.

End FrameSpec.

(** ** More properties of the extraction *)

Module ExtractionSpec.
Import Pandas PandasFacts Notebook NotebookFacts Samples PipelineSpec FrameSpec.

(** X5.  The rows of [get_images]: a row is there exactly when some pet of the
    frame has its id, holds its url in a photo cell and carries its label
    as primary or as secondary breed; and no row is there twice. *)
Theorem get_images_rows df :
  NoDup (get_images df) ∧
  ∀ p, p ∈ get_images df ↔
       ∃ r, r ∈ df ∧ Some (img p) ∈ photos r ∧ id_ p = pet_id r ∧
            (breed p = breed0 r ∨ breed1 r = Some (breed p)).
Proof. split; [apply NoDup_get_images|apply elem_of_get_images]. Qed.



(** X7.  The (img, id) pairs of [breed_images] are exactly the pairs of a url
    of width 500 and the id of a pet that holds it in a photo cell. *)
Theorem breed_images_keys df post u i :
  breed_images df = Ok post →
  (u, i) ∈ img_id <$> post ↔
  ∃ r, r ∈ df ∧ pet_id r = i ∧ Some u ∈ photos r ∧
       image_width_of u = Ok 500.
Proof.
  intros (pre & Hpre & ->)%breed_images_Ok. rewrite list_elem_of_fmap. split.
  - intros (x & Hk & Hx).
    destruct (breed_images_primary _ _ _ Hpre Hx)
      as (_ & Hw & r & Hr & Hid & Hu & _).
    unfold img_id in Hk. injection Hk as -> ->. by exists r.
  - intros (r & Hr & <- & Hu & Hw).
    destruct (breed_images_complete _ _ _ _ Hpre Hr Hu Hw) as (x & Hx & Hk).
    by exists x.
Qed.

Lemma breed_images_keys_witness :
  (photo_url "38018075" "500", 38018075) ∈
  img_id <$> [ Sized (Photo 38018075 "Abyssinian"
                        (photo_url "38018075" "500")) 500;
               Sized (Photo 40181161 "Domestic_Short_Hair"
                        (photo_url "40181161" "500")) 500 ].
Proof.
  apply (breed_images_keys cats); [vm_compute; reflexivity|].
  exists (Pet 38018075 "Abyssinian" None (five_widths "38018075")).
  split_and!; [right; left|reflexivity|do 4 right; left|vm_compute; reflexivity].
Defined.

(** X8.  The per-breed cap changes nothing exactly when no breed has more than
    5000 rows in [breed_images]. *)
Theorem cap_inactive_iff df post :
  breed_images df = Ok post →
  breed_images_5000 df = Ok post ↔
  ∀ b, (length (filter (λ x, breed (row x) = b) post) ≤ 5000)%nat.
Proof.
  intros Hpost. unfold breed_images_5000. rewrite Hpost. simpl.
  rewrite <-(groupby_head_id_iff (λ x, breed (row x)) breed_cap post).
  split; [by intros [= ->]|]. intros Heq. f_equal. exact Heq.
Qed.

Lemma cap_inactive_iff_witness :
  breed_images_5000 cats = breed_images cats.
Proof.
  pose (post := [ Sized (Photo 38018075 "Abyssinian"
                        (photo_url "38018075" "500")) 500;
               Sized (Photo 40181161 "Domestic_Short_Hair"
                        (photo_url "40181161" "500")) 500 ]).
  assert (breed_images cats = Ok post) as Hpost by (vm_compute; reflexivity).
  rewrite Hpost. apply (cap_inactive_iff cats post Hpost).
  intros b. etrans; [apply length_filter|]. vm_compute. lia.
Defined.

(** X9.  The grouping by id leaves the frame in ascending order of id, and so
    are [breed_images] and the capped frame after it. *)
Theorem rows_sorted_by_id df :
  (∀ pre, cat_images_largest df = Ok pre →
     StronglySorted Z.le ((λ x, id_ (row x)) <$> pre)) ∧
  (∀ post, breed_images df = Ok post →
     StronglySorted Z.le ((λ x, id_ (row x)) <$> post)) ∧
  (∀ capped, breed_images_5000 df = Ok capped →
     StronglySorted Z.le ((λ x, id_ (row x)) <$> capped)).
Proof.
  assert (∀ pre, cat_images_largest df = Ok pre →
     StronglySorted Z.le ((λ x, id_ (row x)) <$> pre)) as Hpre.
  { intros pre (szd & _ & ->)%cat_images_largest_Ok.
    rewrite <-list_fmap_compose.
    apply (groupby_apply_StronglySorted (λ x, id_ (row x))
             (λ x, image_width x = target_width)). }
  assert (∀ post, breed_images df = Ok post →
     StronglySorted Z.le ((λ x, id_ (row x)) <$> post)) as Hpost.
  { intros post (pre & Hp & ->)%breed_images_Ok.
    eapply sublist_StronglySorted; [|by apply Hpre].
    apply fmap_sublist, drop_duplicates_from_sublist. }
  split_and!; [done..|].
  intros capped (post & Hp & ->)%breed_images_5000_Ok.
  eapply sublist_StronglySorted; [|by apply Hpost].
  apply fmap_sublist, groupby_head_sublist.
Qed.

Lemma rows_sorted_by_id_witness :
  StronglySorted Z.le [38018075; 40181161].
Proof.
  apply (proj2 (proj2 (rows_sorted_by_id cats))
           [ Sized (Photo 38018075 "Abyssinian"
                        (photo_url "38018075" "500")) 500;
               Sized (Photo 40181161 "Domestic_Short_Hair"
                        (photo_url "40181161" "500")) 500 ]).
  vm_compute. reflexivity.
Defined.

(** X10.  The grouping by id only reorders: [largest] is a permutation of the
    rows of width 500, and the rows of one id keep their order. *)
Theorem largest_Permutation szd :
  largest szd ≡ₚ filter (λ x, image_width x = target_width) szd ∧
  ∀ i, filter (λ x, id_ (row x) = i) (largest szd) =
       filter (λ x, id_ (row x) = i)
         (filter (λ x, image_width x = target_width) szd).
Proof.
  split.
  - apply (groupby_apply_Permutation (λ x, id_ (row x))
             (λ x, image_width x = target_width)).
  - intros i. apply (filter_key_groupby_apply (λ x, id_ (row x))
                       (λ x, image_width x = target_width)).
Qed.

Section blocks.
Context {A : Type} `{Countable K} (key : A → K).

Lemma drop_duplicates_from_app seen l1 l2 :
  drop_duplicates_from key seen (l1 ++ l2) =
  drop_duplicates_from key seen l1 ++
  drop_duplicates_from key (list_to_set (key <$> l1) ∪ seen) l2.
Proof.
  revert seen. induction l1 as [|x l1 IH]; intros seen; simpl.
  - f_equal. set_solver.
  - case_decide as Hx.
    + rewrite IH. do 2 f_equal. set_solver.
    + rewrite IH. simpl. do 3 f_equal. set_solver.
Qed.

Lemma drop_duplicates_from_seen seen l :
  (∀ x, x ∈ l → key x ∈ seen) → drop_duplicates_from key seen l = [].
Proof.
  induction l as [|x l IH]; intros Hall; simpl; [done|].
  rewrite decide_True by (apply Hall; left).
  apply IH. intros y Hy. apply Hall. by right.
Qed.

(** Rows that repeat a row of their own block add nothing. *)
Lemma drop_duplicates_from_blocks {J} (a b : J → list A) (js : list J) seen :
  (∀ j x, x ∈ b j → x ∈ a j) →
  drop_duplicates_from key seen (js ≫= λ j, a j ++ b j) =
  drop_duplicates_from key seen (js ≫= a).
Proof.
  intros Hsub. revert seen. induction js as [|j js IH]; intros seen; [done|].
  rewrite !bind_cons, !drop_duplicates_from_app, IH.
  rewrite (drop_duplicates_from_seen _ (b j)).
  - rewrite app_nil_r. do 2 f_equal.
    assert (list_to_set (key <$> b j) ⊆@{gset K} list_to_set (key <$> a j))
      as Hsubset.
    { intros k (x & -> & Hx)%elem_of_list_to_set%list_elem_of_fmap.
      apply elem_of_list_to_set, list_elem_of_fmap_2. by apply Hsub. }
    rewrite fmap_app, list_to_set_app_L. set_solver.
  - intros x Hx. apply elem_of_union. left.
    apply elem_of_list_to_set, list_elem_of_fmap_2. by apply Hsub.
Qed.
End blocks.

Lemma omap_bind {A B C} (f : B → option C) (g : A → list B) (l : list A) :
  omap f (l ≫= g) = l ≫= λ x, omap f (g x).
Proof.
  induction l as [|x l IH]; [done|]. by rewrite !bind_cons, omap_app, IH.
Qed.

Lemma fmap_bind {A B C} (f : B → C) (g : A → list B) (l : list A) :
  f <$> (l ≫= g) = l ≫= λ x, f <$> g x.
Proof.
  induction l as [|x l IH]; [done|]. by rewrite !bind_cons, fmap_app, IH.
Qed.

Section repeated.
Context (df df2 : list pet).
Hypothesis repeated : ∀ r, r ∈ df2 → r ∈ df.

Lemma photo_columns_repeated : photo_columns (df ++ df2) = photo_columns df.
Proof.
  unfold photo_columns. apply Nat.le_antisymm; apply max_list_mono; intros n.
  - rewrite fmap_app, elem_of_app. intros [?|Hn]; [done|].
    apply list_elem_of_fmap in Hn as (r & -> & Hr).
    apply (list_elem_of_fmap_2 (λ r, length (photos r))). by apply repeated.
  - rewrite fmap_app, elem_of_app. by left.
Qed.

Lemma column_repeated j m : m ∈ column df2 j → m ∈ column df j.
Proof.
  unfold column. rewrite !list_elem_of_omap.
  intros (r & Hr & Hm). exists r. split; [by apply repeated|done].
Qed.

Lemma photos_melted_repeated :
  dropna_value (melt (df ++ df2)) =
  seq 0 (photo_columns df) ≫= λ j, column df j ++ column df2 j.
Proof.
  rewrite photos_melted_columns, photo_columns_repeated.
  apply list_bind_ext; [|done]. intros j. unfold column. apply omap_app.
Qed.

Lemma get_images_repeated : get_images (df ++ df2) = get_images df.
Proof.
  unfold get_images, drop_duplicates.
  rewrite photos_melted_repeated, (photos_melted_columns df).
  unfold breeds1, breeds2. rewrite !fmap_bind, !omap_bind.
  rewrite !drop_duplicates_from_app. f_equal.
  - rewrite <-(drop_duplicates_from_blocks whole_row
                 (λ j, breeds1 (column df j)) (λ j, breeds1 (column df2 j))).
    + f_equal. apply list_bind_ext; [|done]. intros j. apply fmap_app.
    + intros j x (m & -> & Hm)%list_elem_of_fmap.
      apply (list_elem_of_fmap_2 (λ m, Photo (mp_id m) (mp_breed0 m) (value m))). by apply column_repeated.
  - assert (∀ l l' : list photo, (∀ x, x ∈ l ↔ x ∈ l') →
              list_to_set (whole_row <$> l) ∪ ∅ =@{gset _}
              list_to_set (whole_row <$> l') ∪ ∅) as Hset.
    { intros l l' Hll. apply set_eq. intros k.
      rewrite !elem_of_union, !elem_of_list_to_set, !list_elem_of_fmap.
      naive_solver. }
    rewrite (Hset _ (seq 0 (photo_columns df) ≫=
                       λ j, breeds1 (column df j))).
    + rewrite <-(drop_duplicates_from_blocks whole_row
                 (λ j, breeds2 (column df j)) (λ j, breeds2 (column df2 j))).
      * f_equal. apply list_bind_ext; [|done]. intros j. apply omap_app.
      * intros j x (m & Hm & Hx)%list_elem_of_omap.
        apply list_elem_of_omap. exists m. split; [|done].
        by apply column_repeated.
    + intros x. rewrite !list_elem_of_bind. split.
      * intros (j & Hx & Hj). exists j. split; [|done].
        apply list_elem_of_fmap in Hx as (m & -> & Hm).
        apply (list_elem_of_fmap_2 (λ m, Photo (mp_id m) (mp_breed0 m) (value m))).
        apply elem_of_app in Hm as [?|?]; [done|by apply column_repeated].
      * intros (j & Hx & Hj). exists j. split; [|done].
        apply list_elem_of_fmap in Hx as (m & -> & Hm).
        apply (list_elem_of_fmap_2 (λ m, Photo (mp_id m) (mp_breed0 m) (value m))), elem_of_app. by left.
Qed.
End repeated.

(** X11.  Records that repeat records of the frame, appended to it as
    [pd.concat] does with the results of overlapping queries, change
    neither [get_images] nor the final list. *)
Theorem repeated_records_ignored df df2 :
  (∀ r, r ∈ df2 → r ∈ df) →
  get_images (df ++ df2) = get_images df ∧
  breed_list_new (df ++ df2) = breed_list_new df.
Proof.
  intros Hrep. pose proof (get_images_repeated df df2 Hrep) as Heq.
  split; [done|].
  unfold breed_list_new, breed_images_5000, breed_images, cat_images_largest.
  by rewrite Heq.
Qed.

Lemma repeated_records_ignored_witness :
  breed_list_new (cats ++ [Pet 38018075 "Abyssinian" None
                             (five_widths "38018075")]) =
  breed_list_new cats.
Proof.
  apply (repeated_records_ignored cats).
  intros r ->%list_elem_of_singleton. right. left.
Defined.

End ExtractionSpec.

(** ** The files and directories of the download *)

Module FilesSpec.
Import Pandas PandasFacts Notebook NotebookFacts Downloader Directories.
Import Samples PipelineSpec DownloaderSpec PyStr PyStrFacts FrameSpec.

Lemma starts_with_sep_head s :
  starts_with_sep s = bool_decide (head (chars s) = Some "/"%char).
Proof.
  destruct s as [|[[] [] [] [] [] [] [] []] s]; done.
Qed.

Lemma starts_with_sep_false s : "/"%char ∉ chars s → starts_with_sep s = false.
Proof.
  intros Hs. rewrite starts_with_sep_head. apply bool_decide_eq_false.
  intros Hhead. apply Hs. destruct (chars s); simplify_eq/=. left.
Qed.

Lemma ends_with_sep_false p s :
  s ≠ "" → "/"%char ∉ chars s → ends_with_sep (p +:+ s) = false.
Proof.
  intros Hne Hs. unfold ends_with_sep. rewrite starts_with_sep_head.
  apply bool_decide_eq_false. rewrite chars_rev, chars_app, reverse_app.
  intros Hhead. apply Hs.
  destruct (reverse (chars s)) as [|c l] eqn:Hrev.
  - apply (f_equal reverse) in Hrev. rewrite reverse_involutive in Hrev.
    destruct s; simplify_eq/=.
  - simpl in Hhead. injection Hhead as ->.
    apply elem_of_reverse. rewrite Hrev. left.
Qed.

Lemma filename_of_clean (i : nat) b u :
  "/"%char ∉ chars b →
  filename_of (i, b, u) =
  if decide (b = "") then "cat_breeds/" +:+ pretty i +:+ ".jpg"
  else "cat_breeds/" +:+ b +:+ "/" +:+ b +:+ pretty i +:+ ".jpg".
Proof.
  intros Hb. unfold filename_of, path_join. simpl.
  assert (join2 "cat_breeds/" b = "cat_breeds/" +:+ b) as ->.
  { unfold join2. by rewrite starts_with_sep_false by done. }
  unfold join2. rewrite starts_with_sep_false.
  2:{ rewrite !chars_app, !not_elem_of_app. split_and!; [done| |].
      - apply pretty_nat_no_sep.
      - by apply (bool_decide_unpack _). }
  case_decide as Hempty.
  - subst b. done.
  - rewrite ends_with_sep_false by done.
    rewrite bool_decide_eq_false_2; [by rewrite !string_app_assoc|].
    intros Heq. apply (f_equal chars) in Heq. by rewrite chars_app in Heq.
Qed.

Lemma filename_of_inj (i i' : nat) b b' u u' :
  "/"%char ∉ chars b → "/"%char ∉ chars b' →
  filename_of (i, b, u) = filename_of (i', b', u') → b = b' ∧ i = i'.
Proof.
  intros Hb Hb'. rewrite !filename_of_clean by done.
  intros Heq%(f_equal chars).
  assert (∀ j : nat, "/"%char ∉ chars (pretty j) ++ chars ".jpg") as Hnum.
  { intros j. rewrite not_elem_of_app. split; [apply pretty_nat_no_sep|].
    by apply (bool_decide_unpack _). }
  assert (∀ j j' : nat, chars (pretty j) ++ chars ".jpg" =
                        chars (pretty j') ++ chars ".jpg" → j = j') as Hinj.
  { intros j j' Hj%(inj (.++ chars ".jpg"))%(inj chars).
    by apply (inj pretty). }
  repeat case_decide; subst; rewrite !chars_app in Heq;
    apply (inj (chars "cat_breeds/" ++.)) in Heq.
  - split; [done|]. by apply Hinj.
  - destruct (Hnum i). rewrite Heq, !elem_of_app. right. left.
    by apply (bool_decide_unpack _).
  - destruct (Hnum i'). rewrite <-Heq, !elem_of_app. right. left.
    by apply (bool_decide_unpack _).
  - change (chars "/") with ["/"%char] in Heq. simpl in Heq.
    apply split_unique in Heq as [Hbb Hrest]; [|done..].
    apply (inj chars) in Hbb as ->. split; [done|].
    apply (inj (chars b' ++.)) in Hrest. by apply Hinj.
Qed.

(** The breed labels of the final list hold no slash. *)
Lemma final_breed_no_sep df out i b u :
  breed_list_new df = Ok out → (i, b, u) ∈ out → "/"%char ∉ chars b.
Proof.
  intros Hout Hin.
  destruct (breed_list_new_row _ _ _ _ _ Hout Hin)
    as (pre & x & Hpre & Hx & -> & _).
  destruct (breed_images_primary _ _ _ Hpre Hx) as (_ & _ & r & _ & _ & _ & ->).
  apply sanitize_clean.
Qed.

Lemma final_index_inj df out i b u b' u' :
  breed_list_new df = Ok out → (i, b, u) ∈ out → (i, b', u') ∈ out →
  b = b' ∧ u = u'.
Proof.
  intros (capped & _ & ->)%breed_list_new_Ok
    (x & Hx & -> & ->)%elem_of_breed_list_new
    (y & Hy & -> & ->)%elem_of_breed_list_new.
  by simplify_eq.
Qed.

Lemma final_list_NoDup df out : breed_list_new df = Ok out → NoDup out.
Proof.
  intros (capped & _ & ->)%breed_list_new_Ok.
  apply (NoDup_fmap_1 (λ t : nat * string * string, t.1.1)).
  assert ((λ t : nat * string * string, t.1.1) <$>
            imap (λ i x, (i, breed (row x), img (row x))) capped =
          seq 0 (length capped)) as ->; [|apply NoDup_seq].
  rewrite fmap_imap, <-(list_fmap_id (seq 0 (length capped))).
  apply (imap_seq_0 capped (λ i, i)).
Qed.

Lemma filenames_NoDup df out :
  breed_list_new df = Ok out → NoDup (filename_of <$> out).
Proof.
  intros Hout.
  apply NoDup_fmap_2_strong; [|by eapply final_list_NoDup].
  intros [[i b] u] [[i' b'] u'] Hx Hy Hname.
  apply filename_of_inj in Hname as [-> ->];
    [|by eapply final_breed_no_sep..].
  by destruct (final_index_inj _ _ _ _ _ _ _ Hout Hx Hy) as [_ ->].
Qed.

(** X12.  Every file of the final list is written below [cat_breeds/]: in the
    directory of its breed, under the name of the breed followed by the
    index, or directly in [cat_breeds/] when the sanitized breed is empty.
    No two entries of the list have the same file name. *)
Theorem final_filenames df out :
  breed_list_new df = Ok out →
  (∀ i b u, (i, b, u) ∈ out →
     filename_of (i, b, u) =
     if decide (b = "") then "cat_breeds/" +:+ pretty i +:+ ".jpg"
     else "cat_breeds/" +:+ b +:+ "/" +:+ b +:+ pretty i +:+ ".jpg") ∧
  NoDup (filename_of <$> out).
Proof.
  intros Hout. split.
  - intros i b u Hin. apply filename_of_clean.
    by eapply final_breed_no_sep.
  - by apply (filenames_NoDup df).
Qed.

Lemma final_filenames_witness :
  NoDup [ "cat_breeds/Abyssinian/Abyssinian0.jpg"%string;
          "cat_breeds/Domestic_Short_Hair/Domestic_Short_Hair1.jpg"%string ].
Proof.
  apply (proj2 (final_filenames cats
           [ (0%nat, "Abyssinian", photo_url "38018075" "500");
             (1%nat, "Domestic_Short_Hair", photo_url "40181161" "500") ]
           ltac:(vm_compute; reflexivity))).
Defined.

Lemma run_tasks_cons_world {A B} (f : A → world → result B * world) x l w :
  (run_tasks f (x :: l) w).2 = (run_tasks f l (f x w).2).2.
Proof.
  simpl. destruct (f x w) as [r w1]. simpl.
  by destruct (run_tasks f l w1).
Qed.

Lemma download_files net item w :
  files (download_breed_images net item w).2 =
  match net item.2 with
  | None => (filename_of item, item.2) :: files w
  | Some _ => files w
  end.
Proof.
  unfold download_breed_images, urlretrieve.
  destruct (net item.2) as [[]|]; reflexivity.
Qed.

Lemma run_tasks_files net items w :
  files (run_tasks (download_breed_images net) items w).2 =
  reverse (omap (λ item, match net item.2 with
                         | None => Some (filename_of item, item.2)
                         | Some _ => None
                         end) items) ++ files w.
Proof.
  revert w. induction items as [|item items IH]; intros w; [done|].
  rewrite run_tasks_cons_world, IH, download_files. simpl.
  destruct (net item.2); [done|].
  by rewrite reverse_cons, <-app_assoc.
Qed.

(** X13.  When every retrieval of the final list succeeds or fails with an
    [HTTPError], the pool returns, and the files written are exactly those
    of the entries whose retrieval succeeded, each under its own name: no
    file is written twice. *)
Theorem downloads_written df out net :
  breed_list_new df = Ok out →
  (∀ item, item ∈ out →
     net item.2 = None ∨ ∃ code, net item.2 = Some (HTTPError code)) →
  (pool_map (download_breed_images net) out fresh).1 =
    Ok (replicate (length out) ()) ∧
  (∀ path url,
     (path, url) ∈ files (pool_map (download_breed_images net) out fresh).2 ↔
     ∃ item, item ∈ out ∧ net item.2 = None ∧
             path = filename_of item ∧ url = item.2) ∧
  NoDup (files (pool_map (download_breed_images net) out fresh).2).*1.
Proof.
  intros Hout Hnet.
  destruct (run_tasks_HTTPError net out fresh Hnet) as [Hrs _].
  pose proof (run_tasks_files net out fresh) as Hfiles.
  unfold pool_map. destruct (run_tasks _ out fresh) as [rs w'].
  simpl in *. subst rs. rewrite app_nil_r in Hfiles. rewrite Hfiles.
  split_and!.
  - apply mapM_result_replicate.
  - intros path url. rewrite elem_of_reverse, list_elem_of_omap. split.
    + intros (item & Hitem & Hsome). exists item.
      destruct (net item.2); simplify_eq/=. done.
    + intros (item & Hitem & Hn & -> & ->). exists item.
      by rewrite Hn.
  - rewrite fmap_reverse, reverse_Permutation.
    eapply sublist_NoDup; [by apply (filenames_NoDup df)|].
    clear. induction out as [|item out IH]; [done|]. simpl.
    destruct (net item.2); simpl.
    + by apply sublist_cons.
    + by apply sublist_skip.
Qed.

Lemma downloads_written_witness :
  NoDup (files (pool_map (download_breed_images (unsupported_media "38018075"))
                  [ (0%nat, "Abyssinian", photo_url "38018075" "500");
                    (1%nat, "Domestic_Short_Hair",
                     photo_url "40181161" "500") ] fresh).2).*1.
Proof.
  refine (proj2 (proj2 (downloads_written cats _
            (unsupported_media "38018075") _ _))).
  - vm_compute. reflexivity.
  - intros item Hitem. apply elem_of_cons in Hitem as [->|Hitem].
    + right. exists 415. vm_compute. reflexivity.
    + apply list_elem_of_singleton in Hitem as ->. left.
      vm_compute. reflexivity.
Defined.



End FilesSpec.
